(** * Streaming stock analysis setup notebook: the batched replay loop

    A shallow embedding of [streaming-stock-data-analysis-setup.py]: the
    one-time bootstrap of the price table and the [while] loop that replays
    the source rows into [stockDailyPrices_delta], [daysAtOnce] distinct
    dates at a time. *)

From stdpp Require Import gmap strings list sorting fin_maps.
From Stdlib Require Import ZArith Lia.

Local Open Scope Z_scope.

(** ** Rows and dates *)

(** A [price_date] is a calendar date; it is modelled by its ordinal (as
    Python's [date.toordinal]), which orders dates exactly as the engine
    compares them with the ['%Y-%m-%d'] literals of the insert statement. *)
Abbreviation date := Z (only parsing).

Record row := Row {
  ticker : string;
  price_date : date;
  prices : list Z
}.

(** A batch window [(price_date_min, price_date_max)]. *)
Abbreviation window := (date * date)%type (only parsing).

(** [f.price_date >= min and f.price_date <= max] *)
Definition in_window (w : window) (r : row) : Prop :=
  w.1 ≤ price_date r ∧ price_date r ≤ w.2.

Global Instance in_window_dec w r : Decision (in_window w r).
Proof. unfold in_window. apply _. Defined.

(** [select f.* from stockDailyPrices f where ...] *)
Definition select_window (src : list row) (w : window) : list row :=
  filter (in_window w) src.

(** [select distinct price_date from stockDailyPrices order by price_date],
    collected into the Python list [datelist]. *)
Definition datelist (src : list row) : list date :=
  merge_sort Z.le (remove_dups (price_date <$> src)).

(** ** Python list indexing *)

(** [l[k]]: a negative index counts from the end; anything outside
    [-len(l) .. len(l)-1] raises [IndexError] (here [None]). *)
Definition py_index {A} (l : list A) (k : Z) : option A :=
  if bool_decide (0 ≤ k) then l !! Z.to_nat k
  else if bool_decide (- Z.of_nat (length l) ≤ k) then l !! Z.to_nat (Z.of_nat (length l) + k)
  else None.

(** ** The engine and the driver's state *)

Inductive exn :=
  | IndexError
  | SparkError (msg : string).

(** What the engine does with an insert statement is outside the notebook:
    an engine [fault], applied to [tbl] and [w], says whether the insert of window [w] into the table
    [tbl] raises, and with which message. An insert is atomic: when it
    raises, the table is unchanged. *)
Abbreviation engine := (list row → window → option string) (only parsing).

Definition healthy : engine := λ _ _, None.

Record state := State {
  cursor : Z;                 (* the loop variable [i] *)
  table : list row;           (* the rows of [stockDailyPrices_delta] *)
  issued : list window;       (* insert statements sent to the engine *)
  printed : list window       (* progress lines printed, one per batch *)
}.

Definition init : state := State 0 [] [] [].

Inductive outcome :=
  | Finished (s : state)           (* the loop condition became false *)
  | Raised (e : exn) (s : state)   (* an exception left the cell *)
  | Running (s : state).           (* still looping when the fuel ran out *)

(** The state an outcome comes with. *)
Definition outcome_state (o : outcome) : state :=
  match o with Finished s | Raised _ s | Running s => s end.

(** The constant of the notebook. *)
Definition daysAtOnce_default : Z := 3.

Section Driver.
Variable fault : engine.
Variable src : list row.
Variable daysAtOnce : Z.

(** [spark.sql(insert_sql)] *)
Definition spark_sql_insert (tbl : list row) (w : window) : exn + list row :=
  match fault tbl w with
  | Some msg => inl (SparkError msg)
  | None => inr (tbl ++ select_window src w)
  end.

(** [datelist_len = len(datelist) - 1] *)
Definition datelist_len : Z := Z.of_nat (length (datelist src)) - 1.

(** One pass through the body of the [while] loop. The state that comes
    with an exception is the one the exception leaves behind. The
    [time.sleep(7)] that ends the body changes nothing of the state. *)
Definition loop_body (s : state) : exn * state + state :=
  match py_index (datelist src) (cursor s) with
  | None => inl (IndexError, s)
  | Some price_date_min =>
    match py_index (datelist src) (cursor s + daysAtOnce - 1) with
    | None => inl (IndexError, s)
    | Some price_date_max =>
      let w := (price_date_min, price_date_max) in
      match spark_sql_insert (table s) w with
      | inl e => inl (e, State (cursor s) (table s) (issued s ++ [w]) (printed s))
      | inr tbl =>
        inr (State (cursor s + daysAtOnce) tbl (issued s ++ [w]) (printed s ++ [w]))
      end
    end
  end.

(** [while (i < datelist_len): ...] *)
Fixpoint replay (fuel : nat) (s : state) : outcome :=
  if bool_decide (cursor s < datelist_len) then
    match fuel with
    | O => Running s
    | S fuel' =>
      match loop_body s with
      | inl (e, s') => Raised e s'
      | inr s' => replay fuel' s'
      end
    end
  else Finished s.

(** The states the loop passes through, each after a completed batch. *)
Inductive reach : state → Prop :=
  | reach_init : reach init
  | reach_step s s' :
      reach s → cursor s < datelist_len → loop_body s = inr s' → reach s'.

End Driver.

(** ** Batches and the loop invariant *)

(** The rows that lie in one of the windows [ws]. *)
Definition covered (ws : list window) (r : row) : Prop :=
  Exists (λ w, in_window w r) ws.

Global Instance covered_dec ws r : Decision (covered ws r).
Proof. unfold covered. apply _. Defined.

(** What holds of the state after every completed batch, when the step is
    positive: the cursor is a multiple of the step, every statement issued
    was printed, the table is the windows' selections one after the other,
    window [j] was read at the indices [b * j] and [b * j + b - 1], and the
    batch done last was started under the loop condition. *)
Record inv (src : list row) (b : Z) (s : state) : Prop := Inv {
  inv_cursor : cursor s = b * Z.of_nat (length (printed s));
  inv_issued : issued s = printed s;
  inv_table : table s = mjoin (select_window src <$> printed s);
  inv_windows : ∀ j w, printed s !! j = Some w →
    datelist src !! Z.to_nat (b * Z.of_nat j) = Some w.1 ∧
    datelist src !! Z.to_nat (b * Z.of_nat j + b - 1) = Some w.2;
  inv_guard : printed s ≠ [] → cursor s - b < Z.of_nat (length (datelist src)) - 1
}.

(** [ceil(a / b)] for a positive [b]. *)
Definition ceil_div (a b : Z) : Z := (a + b - 1) / b.

(** ** The bootstrap of the price table *)

(** What the store holds at a location: a schema and rows. *)
Record dataset := Dataset {
  schema : list string;
  rows : list row
}.

Definition parquetPricePath : string :=
  "/ml/streaming-stock-analysis/parquet/stocksDailyPricesSample/".
Definition deltaPricePath : string :=
  "/ml/streaming-stock-analysis/delta/stocksDailyPrices".

(** [p] is the location [dir] or lies below it. *)
Definition under (dir p : string) : Prop :=
  p = dir ∨ String.prefix (dir +:+ "/") p = true.

Global Instance under_dec dir p : Decision (under dir p).
Proof. unfold under. apply _. Defined.

(** [dbutils.fs.rm(dir, recurse=True)] *)
Definition fs_rm (dir : string) (fs : gmap string dataset) : gmap string dataset :=
  filter (λ kv, ¬ under dir kv.1) fs.

(** [spark.read.parquet(path)]; [None] when nothing is stored there. *)
Definition read_parquet (fs : gmap string dataset) (path : string) : option dataset :=
  fs !! path.

(** [df.limit(k)] *)
Definition limit (k : nat) (df : dataset) : dataset :=
  Dataset (schema df) (take k (rows df)).

(** [df.write.mode("overwrite").format("delta").save(path)] *)
Definition save_overwrite (path : string) (df : dataset)
    (fs : gmap string dataset) : gmap string dataset :=
  <[path := df]> fs.

(** Remove the existing delta price data and create it again with no data,
    based on the parquet data. *)
Definition bootstrap_price_table (fs : gmap string dataset) : option (gmap string dataset) :=
  let fs1 := fs_rm deltaPricePath fs in
  dfPriceTable ← limit 0 <$> read_parquet fs1 parquetPricePath;
  Some (save_overwrite deltaPricePath dfPriceTable fs1).

(** ** Sample data *)

Definition sample_row (t : string) (d : date) : row := Row t d [100; 101].

(** Two tickers on each of the dates [1 .. n], in no particular order. *)
Definition sample_src (n : nat) : list row :=
  ((λ d, sample_row "MSFT" (Z.of_nat d)) <$> reverse (seq 1 n))
  ++ ((λ d, sample_row "AAPL" (Z.of_nat d)) <$> seq 1 n).

(** An engine that refuses the insert of the window [w0]. *)
Definition fails_at (w0 : window) (msg : string) : engine :=
  λ _ w, if decide (w = w0) then Some msg else None.

(** A store that holds the sample rows as the downloaded parquet data and an
    older price table. *)
Definition sample_store : gmap string dataset :=
  {[ parquetPricePath := Dataset ["ticker"; "price_date"; "close"] (sample_src 4);
     deltaPricePath := Dataset ["ticker"; "price_date"; "close"] (sample_src 2);
     deltaPricePath +:+ "/_delta_log" := Dataset ["version"] [] ]}.

(** ** Readings of the specification that the notebook does not meet *)

(** "The failure surfaced to the caller carries the failed batch's range":
    the range can be read off the exception, whatever the engine, the source
    and the step. *)
Definition range_reported (read : exn → option window) : Prop :=
  ∀ (fault : engine) src b fuel msg s w,
    replay fault src b fuel init = Raised (SparkError msg) s →
    last (issued s) = Some w → read (SparkError msg) = Some w.

(** "The driver fails before any table mutation": some run ends in an
    exception with the table still empty. *)
Definition fails_fast (src : list row) (b : Z) : Prop :=
  ∃ fuel e s, replay healthy src b fuel init = Raised e s ∧ table s = [].

(** "The final iteration fails with an index out of range after
    [floor((n-1)/b)] batches". *)
Definition index_fault_after_floor (src : list row) (b : Z) : Prop :=
  ∃ fuel s, replay healthy src b fuel init = Raised IndexError s ∧
    Z.of_nat (length (printed s)) = (Z.of_nat (length (datelist src)) - 1) / b.

(** "The replay performs [ceil((n-1)/b)] batch appends". *)
Definition appends_ceil_batches (src : list row) (b : Z) : Prop :=
  ∃ fuel s, replay healthy src b fuel init = Finished s ∧
    Z.of_nat (length (printed s)) = ceil_div (Z.of_nat (length (datelist src)) - 1) b.

(** ** The other tables of the notebook *)

Definition parquetFundPath : string :=
  "/ml/streaming-stock-analysis/parquet/stocksFundamentalsSample/".
Definition deltaFundPath : string :=
  "/ml/streaming-stock-analysis/delta/stocksFundamentals".
Definition deltaPriceFundPath : string :=
  "/ml/streaming-stock-analysis/delta/stocksDailyPricesWFund".

(** [spark.read.format("delta").load(path)] *)
Definition load_delta (fs : gmap string dataset) (path : string) : option dataset :=
  fs !! path.

(** Remove the current delta fundamental data and create it again based on
    the parquet data, with all its rows. *)
Definition bootstrap_fund_table (fs : gmap string dataset) : option (gmap string dataset) :=
  let fs1 := fs_rm deltaFundPath fs in
  dfFundParquet ← read_parquet fs1 parquetFundPath;
  Some (save_overwrite deltaFundPath dfFundParquet fs1).

(** How a cell over the store ends: done, or with the exception of a read
    of a location that holds nothing; either way with the store it leaves. *)
Inductive cell_result :=
  | CellDone (fs : gmap string dataset)
  | CellRaised (fs : gmap string dataset).

(** The cell of the price table, statement by statement: the removal has
    taken place when the read raises. *)
Definition price_table_cell (fs : gmap string dataset) : cell_result :=
  let fs1 := fs_rm deltaPricePath fs in
  match read_parquet fs1 parquetPricePath with
  | None => CellRaised fs1
  | Some df => CellDone (save_overwrite deltaPricePath (limit 0 df) fs1)
  end.

(** ** The catalog *)

(** The databases of the session, each with its tables and their locations,
    and the database in use. Names are compared as written; the notebook
    writes each name one way. *)
Record session := Session {
  databases : gmap string (gmap string string);
  current_database : string
}.

Inductive statement :=
  | CreateDatabaseIfNotExists (db : string)
  | Use (db : string)
  | DropTableIfExists (t : string)
  | CreateTableUsingDeltaLocation (t : string) (location : string).

Inductive sql_error :=
  | NoSuchDatabase (db : string)
  | TableAlreadyExists (t : string)
  | NoDeltaTable (location : string).

(** One statement, on the store [fs]. A table is created over a location
    only when the location holds a table, whose schema it takes. *)
Definition exec_sql (fs : gmap string dataset) (q : statement) (se : session)
    : sql_error + session :=
  match q with
  | CreateDatabaseIfNotExists db =>
    match databases se !! db with
    | Some _ => inr se
    | None => inr (Session (<[db := ∅]> (databases se)) (current_database se))
    end
  | Use db =>
    match databases se !! db with
    | Some _ => inr (Session (databases se) db)
    | None => inl (NoSuchDatabase db)
    end
  | DropTableIfExists t =>
    match databases se !! current_database se with
    | Some tables =>
      inr (Session (<[current_database se := delete t tables]> (databases se))
                   (current_database se))
    | None => inr se
    end
  | CreateTableUsingDeltaLocation t location =>
    match databases se !! current_database se with
    | None => inl (NoSuchDatabase (current_database se))
    | Some tables =>
      match tables !! t with
      | Some _ => inl (TableAlreadyExists t)
      | None =>
        match fs !! location with
        | None => inl (NoDeltaTable location)
        | Some _ =>
          inr (Session (<[current_database se := <[t := location]> tables]> (databases se))
                       (current_database se))
        end
      end
    end
  end.

(** Statements one after the other, up to the first that raises. *)
Fixpoint run_sql (fs : gmap string dataset) (qs : list statement) (se : session)
    : sql_error + session :=
  match qs with
  | [] => inr se
  | q :: qs' =>
    match exec_sql fs q se with
    | inl e => inl e
    | inr se' => run_sql fs qs' se'
    end
  end.

(** The two cells that create the table [stockDailyPrices_delta]. *)
Definition create_table_cells : list statement :=
  [ CreateDatabaseIfNotExists "stockDeltaStreaming";
    Use "stockDeltaStreaming";
    DropTableIfExists "stockDailyPrices_delta";
    CreateTableUsingDeltaLocation "stockDailyPrices_delta" deltaPricePath ].

(** A store with both downloads and older tables, and a session that has
    seen the notebook before. *)
Definition sample_lake : gmap string dataset :=
  {[ parquetPricePath := Dataset ["ticker"; "price_date"; "close"] (sample_src 4);
     parquetFundPath := Dataset ["ticker"; "eps_basic_net"] [sample_row "MSFT" 0];
     deltaPricePath := Dataset ["ticker"; "price_date"; "close"] (sample_src 2);
     deltaPricePath +:+ "/_delta_log" := Dataset ["version"] [];
     deltaPriceFundPath := Dataset ["ticker"; "eps_basic_net"] [] ]}.

Definition sample_session : session :=
  Session {[ "default" := ∅;
             "stockDeltaStreaming" :=
               {[ "stockDailyPrices_delta" := "/old/location";
                  "other_table" := "/other/location" ]} ]}
          "default".

(** ** Lists: sorted lookups and filters *)

Section ListFacts.
Context {A : Type}.

Lemma StronglySorted_lookup_rel (R : relation A) (l : list A) i j x y :
  StronglySorted R l → (i < j)%nat →
  l !! i = Some x → l !! j = Some y → R x y.
Proof.
  intros Hs; revert i j.
  induction Hs as [|a l Hs IH Hall]; intros i j Hij Hi Hj; [done|].
  destruct j as [|j]; [lia|]. destruct i as [|i]; simpl in *.
  - simplify_eq. by eapply Forall_lookup_1.
  - eapply IH; [|done..]. lia.
Qed.

(** Two filters that never select the same element select, together,
    what the filter of their disjunction selects. *)
Lemma filter_disjoint_app (P Q U : A → Prop)
    `{!∀ x, Decision (P x), !∀ x, Decision (Q x), !∀ x, Decision (U x)}
    (l : list A) :
  (∀ x, x ∈ l → (U x ↔ P x ∨ Q x)) →
  (∀ x, x ∈ l → P x → Q x → False) →
  filter P l ++ filter Q l ≡ₚ filter U l.
Proof.
  induction l as [|a l IH]; intros HU Hdis; [done|].
  assert (filter P l ++ filter Q l ≡ₚ filter U l) as IH'.
  { apply IH; intros x Hx; [apply HU | apply Hdis]; by right. }
  assert (a ∈ a :: l) as Ha by left.
  specialize (HU a Ha). specialize (Hdis a Ha).
  rewrite !filter_cons.
  destruct (decide (P a)) as [HP|HP], (decide (Q a)) as [HQ|HQ],
    (decide (U a)) as [HUa|HUa]; try tauto; simpl.
  - by rewrite IH'.
  - rewrite <- Permutation_middle. by rewrite IH'.
Qed.

Lemma filter_ext_elem (P Q : A → Prop)
    `{!∀ x, Decision (P x), !∀ x, Decision (Q x)} (l : list A) :
  (∀ x, x ∈ l → (P x ↔ Q x)) → filter P l = filter Q l.
Proof.
  induction l as [|a l IH]; intros HPQ; [done|].
  assert (P a ↔ Q a) as Ha by (apply HPQ; left).
  rewrite !filter_cons, IH by (intros x Hx; apply HPQ; by right).
  destruct (decide (P a)), (decide (Q a)); tauto || done.
Qed.
End ListFacts.

(** ** The list of dates *)

Section Datelist.
Variable src : list row.

Lemma datelist_elem_of d :
  d ∈ datelist src ↔ ∃ r, r ∈ src ∧ price_date r = d.
Proof.
  unfold datelist. rewrite merge_sort_Permutation, elem_of_remove_dups.
  rewrite list_elem_of_fmap.
  split; [intros (r & -> & ?) | intros (r & ? & <-)]; eauto.
Qed.

Lemma datelist_NoDup : NoDup (datelist src).
Proof.
  unfold datelist. rewrite merge_sort_Permutation. apply NoDup_remove_dups.
Qed.

Lemma datelist_sorted : StronglySorted Z.le (datelist src).
Proof. apply StronglySorted_merge_sort; apply _. Qed.

(** [order by price_date] over [distinct] dates: strictly ascending. *)
Lemma datelist_lookup_lt i j x y :
  (i < j)%nat → datelist src !! i = Some x → datelist src !! j = Some y → x < y.
Proof.
  intros Hij Hi Hj.
  assert (x ≤ y) by (eapply (StronglySorted_lookup_rel Z.le); eauto using datelist_sorted).
  assert (x ≠ y).
  { intros ->. pose proof (NoDup_lookup _ _ _ _ datelist_NoDup Hi Hj). lia. }
  lia.
Qed.

Lemma datelist_lookup_le i j x y :
  (i ≤ j)%nat → datelist src !! i = Some x → datelist src !! j = Some y → x ≤ y.
Proof.
  intros Hij Hi Hj. destruct (decide (i = j)) as [->|].
  - simplify_eq. lia.
  - assert (x < y); [|lia]. eapply datelist_lookup_lt; [|done..]. lia.
Qed.

Lemma datelist_lookup_le_inv i j x y :
  datelist src !! i = Some x → datelist src !! j = Some y → x ≤ y → (i ≤ j)%nat.
Proof.
  intros Hi Hj Hxy. destruct (decide (i ≤ j)%nat); [done|].
  assert (y < x); [|lia]. eapply datelist_lookup_lt; [|done..]. lia.
Qed.

Lemma datelist_row_lookup r :
  r ∈ src → ∃ m, datelist src !! m = Some (price_date r).
Proof.
  intros Hr. apply list_elem_of_lookup_1, datelist_elem_of. eauto.
Qed.
End Datelist.

Lemma py_index_nonneg {A} (l : list A) (k : Z) :
  0 ≤ k → py_index l k = l !! Z.to_nat k.
Proof. intros. unfold py_index. by rewrite bool_decide_eq_true_2. Qed.

(** ** How the loop runs *)

Section Execution.
Variable fault : engine.
Variable src : list row.
Variable b : Z.

Local Abbreviation keys := (datelist src).

Lemma loop_body_success s s' :
  loop_body fault src b s = inr s' →
  ∃ w, py_index keys (cursor s) = Some w.1 ∧
       py_index keys (cursor s + b - 1) = Some w.2 ∧
       fault (table s) w = None ∧
       s' = State (cursor s + b) (table s ++ select_window src w)
                  (issued s ++ [w]) (printed s ++ [w]).
Proof.
  unfold loop_body, spark_sql_insert.
  destruct (py_index keys (cursor s)) as [lo|] eqn:Hlo; [|done].
  destruct (py_index keys (cursor s + b - 1)) as [hi|] eqn:Hhi; [|done].
  destruct (fault (table s) (lo, hi)) eqn:Hf; [done|].
  intros [= <-]. by exists (lo, hi).
Qed.

(** An exception is either an index out of range, which leaves the state as
    it was, or the engine's own, raised by the insert of the window at the
    cursor. *)
Lemma loop_body_failure s e s' :
  loop_body fault src b s = inl (e, s') →
  (e = IndexError ∧ s' = s ∧
   (py_index keys (cursor s) = None ∨ py_index keys (cursor s + b - 1) = None))
  ∨ (∃ w msg, py_index keys (cursor s) = Some w.1 ∧
       py_index keys (cursor s + b - 1) = Some w.2 ∧
       fault (table s) w = Some msg ∧ e = SparkError msg ∧
       s' = State (cursor s) (table s) (issued s ++ [w]) (printed s)).
Proof.
  unfold loop_body, spark_sql_insert.
  destruct (py_index keys (cursor s)) as [lo|] eqn:Hlo;
    [|intros [= <- <-]; left; eauto].
  destruct (py_index keys (cursor s + b - 1)) as [hi|] eqn:Hhi;
    [|intros [= <- <-]; left; eauto].
  destruct (fault (table s) (lo, hi)) as [msg|] eqn:Hf; [|done].
  intros [= <- <-]. right. by exists (lo, hi), msg.
Qed.

Lemma replay_unfold fuel s :
  replay fault src b (S fuel) s =
  if bool_decide (cursor s < datelist_len src) then
    match loop_body fault src b s with
    | inl (e, s') => Raised e s'
    | inr s' => replay fault src b fuel s'
    end
  else Finished s.
Proof. done. Qed.

Lemma replay_stop fuel s :
  ¬ cursor s < datelist_len src → replay fault src b fuel s = Finished s.
Proof. intros. destruct fuel; simpl; by rewrite bool_decide_eq_false_2. Qed.

Lemma replay_Finished fuel s s' :
  reach fault src b s → replay fault src b fuel s = Finished s' →
  reach fault src b s' ∧ datelist_len src ≤ cursor s'.
Proof.
  revert s. induction fuel as [|fuel IH]; intros s Hs; simpl; case_bool_decide; try done.
  - intros [= <-]. split; [done|lia].
  - destruct (loop_body fault src b s) as [[e s1]|s1] eqn:Hbody; [done|].
    apply IH. by eapply reach_step.
  - intros [= <-]. split; [done|lia].
Qed.

Lemma replay_Raised fuel s e s' :
  reach fault src b s → replay fault src b fuel s = Raised e s' →
  ∃ s0, reach fault src b s0 ∧ cursor s0 < datelist_len src ∧
        loop_body fault src b s0 = inl (e, s').
Proof.
  revert s. induction fuel as [|fuel IH]; intros s Hs; simpl; case_bool_decide; try done.
  destruct (loop_body fault src b s) as [[e1 s1]|s1] eqn:Hbody.
  - intros [= <- <-]. eauto.
  - apply IH. by eapply reach_step.
Qed.

Lemma replay_Running fuel s s' :
  reach fault src b s → replay fault src b fuel s = Running s' →
  reach fault src b s' ∧ cursor s' < datelist_len src.
Proof.
  revert s. induction fuel as [|fuel IH]; intros s Hs; simpl; case_bool_decide; try done.
  - by intros [= <-].
  - destruct (loop_body fault src b s) as [[e s1]|s1] eqn:Hbody; [done|].
    apply IH. by eapply reach_step.
Qed.

(** With a positive step the cursor passes [datelist_len] within
    [datelist_len] iterations: the loop comes to an end. *)
Lemma replay_enough_fuel fuel s s' :
  0 < b → (Z.to_nat (datelist_len src - cursor s) ≤ fuel)%nat →
  replay fault src b fuel s ≠ Running s'.
Proof.
  intros Hb. revert s. induction fuel as [|fuel IH]; intros s Hfuel; simpl;
    case_bool_decide; try done; [lia|].
  destruct (loop_body fault src b s) as [[e s1]|s1] eqn:Hbody; [done|].
  apply IH. apply loop_body_success in Hbody as (w & _ & _ & _ & ->). simpl. lia.
Qed.

(** Every state of [reach] is one the loop passes through. *)
Lemma reach_replay s :
  reach fault src b s →
  ∃ k, ∀ fuel, replay fault src b (k + fuel) init = replay fault src b fuel s.
Proof.
  induction 1 as [|s s' _ [k IH] Hlt Hbody]; [by exists 0%nat|].
  exists (S k). intros fuel.
  replace (S k + fuel)%nat with (k + S fuel)%nat by lia.
  by rewrite IH, replay_unfold, bool_decide_eq_true_2, Hbody.
Qed.

(** With a step of zero the cursor never moves. *)
Lemma reach_step_zero s : b = 0 → reach fault src b s → cursor s = 0.
Proof.
  intros Hb. induction 1 as [|s s' _ IH _ Hbody]; [done|].
  apply loop_body_success in Hbody as (w & _ & _ & _ & ->). simpl. lia.
Qed.
End Execution.

(** ** Invariants of the loop, for a positive [daysAtOnce] *)

Section Invariants.
Variable fault : engine.
Variable src : list row.
Variable b : Z.
Hypothesis b_pos : 0 < b.

Local Abbreviation keys := (datelist src).
Local Abbreviation n := (Z.of_nat (length (datelist src))).

Lemma loop_body_inr s s' :
  0 ≤ cursor s → loop_body fault src b s = inr s' →
  ∃ w, keys !! Z.to_nat (cursor s) = Some w.1 ∧
       keys !! Z.to_nat (cursor s + b - 1) = Some w.2 ∧
       fault (table s) w = None ∧
       s' = State (cursor s + b) (table s ++ select_window src w)
                  (issued s ++ [w]) (printed s ++ [w]).
Proof.
  intros Hc Hbody. apply loop_body_success in Hbody as (w & Hlo & Hhi & Hf & ->).
  rewrite py_index_nonneg in Hlo, Hhi by lia. eauto.
Qed.

Lemma inv_init : inv src b init.
Proof. split; simpl; try done. lia. Qed.

Lemma inv_step s s' :
  inv src b s → cursor s < datelist_len src → loop_body fault src b s = inr s' → inv src b s'.
Proof.
  intros [Hc Hi Ht Hw Hg] Hlt Hbody.
  apply loop_body_inr in Hbody as (w & Hlo & Hhi & _ & ->); [|lia].
  split; simpl.
  - rewrite length_app; simpl. lia.
  - by rewrite Hi.
  - rewrite fmap_app, join_app; simpl. by rewrite app_nil_r, Ht.
  - intros j w' Hj. apply lookup_snoc_Some in Hj as [[Hlen Hj]|[-> ->]].
    + by apply Hw.
    + by rewrite <- Hc.
  - intros _. unfold datelist_len in Hlt. lia.
Qed.

Lemma reach_inv s : reach fault src b s → inv src b s.
Proof. induction 1; eauto using inv_init, inv_step. Qed.

Lemma inv_cursor_nonneg s : inv src b s → 0 ≤ cursor s.
Proof. intros [Hc _ _ _ _]. lia. Qed.

(** The last index a completed batch has read lies inside [datelist]. *)
Lemma inv_cursor_le s : inv src b s → cursor s ≤ n.
Proof.
  intros [Hc _ _ Hw _].
  destruct (printed s) as [|w0 ws] eqn:Hp using rev_ind; [simpl in *; lia|].
  clear IHws. rewrite length_app in Hc; simpl in Hc.
  destruct (Hw (length ws) w0) as [_ Hhi].
  { by rewrite lookup_app_r, Nat.sub_diag by lia. }
  apply lookup_lt_Some in Hhi. lia.
Qed.

(** Windows are read at ascending indices, so each one ends before the
    next one starts. *)
Lemma inv_windows_ascending s i j w1 w2 :
  inv src b s → (i < j)%nat →
  printed s !! i = Some w1 → printed s !! j = Some w2 → w1.2 < w2.1.
Proof.
  intros [_ _ _ Hw _] Hij H1 H2.
  destruct (Hw _ _ H1) as [_ Hhi]. destruct (Hw _ _ H2) as [Hlo _].
  eapply datelist_lookup_lt; [|done..]. nia.
Qed.

Lemma inv_window_le s j w :
  inv src b s → printed s !! j = Some w → w.1 ≤ w.2.
Proof.
  intros [_ _ _ Hw _] Hj. destruct (Hw _ _ Hj) as [Hlo Hhi].
  eapply datelist_lookup_le; [|done..]. lia.
Qed.
End Invariants.

(** ** What the table holds *)

Lemma filter_covered_nil (src : list row) : filter (covered []) src = [].
Proof.
  induction src as [|r src IH]; [done|].
  rewrite filter_cons_False; [done|]. unfold covered. by inversion 1.
Qed.

(** Appending the selections of windows that lie one after the other gives
    every row of a window once. *)
Lemma join_select_covered (src : list row) (ws : list window) :
  (∀ i j w1 w2, (i < j)%nat → ws !! i = Some w1 → ws !! j = Some w2 → w1.2 < w2.1) →
  mjoin (select_window src <$> ws) ≡ₚ filter (covered ws) src.
Proof.
  induction ws as [|w ws IH]; intros Hasc; simpl.
  { by rewrite filter_covered_nil. }
  rewrite IH by (intros i j w1 w2 Hij; apply (Hasc (S i) (S j)); lia).
  apply filter_disjoint_app.
  - intros r _. unfold covered. by rewrite Exists_cons.
  - intros r _ [_ Hr] Hcov. unfold covered in Hcov.
    apply Exists_exists in Hcov as (w' & Hw' & [Hr' _]).
    apply list_elem_of_lookup_1 in Hw' as [j Hj].
    assert (w.2 < w'.1); [|lia].
    apply (Hasc 0%nat (S j)); [lia|done..].
Qed.

Section Coverage.
Variable fault : engine.
Variable src : list row.
Variable b : Z.
Hypothesis b_pos : 0 < b.

Local Abbreviation keys := (datelist src).
Local Abbreviation n := (Z.of_nat (length (datelist src))).

Lemma inv_table_covered s :
  inv src b s → table s ≡ₚ filter (covered (printed s)) src.
Proof.
  intros Hinv. rewrite (inv_table _ _ _ Hinv). apply join_select_covered.
  intros i j w1 w2. by apply (inv_windows_ascending src b b_pos s).
Qed.

(** The windows of the batches done cover the dates at the indices below
    the cursor, and no other. *)
Lemma inv_covered_index s r m :
  inv src b s → keys !! m = Some (price_date r) →
  covered (printed s) r ↔ Z.of_nat m < cursor s.
Proof.
  intros [Hc _ _ Hw _] Hm. split.
  - intros Hcov. apply Exists_exists in Hcov as (w & Hin & [_ Hle]).
    apply list_elem_of_lookup_1 in Hin as [j Hj].
    destruct (Hw _ _ Hj) as [_ Hhi].
    pose proof (datelist_lookup_le_inv _ _ _ _ _ Hm Hhi Hle).
    apply lookup_lt_Some in Hj. nia.
  - intros Hlt. set (j := Z.to_nat (Z.of_nat m / b)).
    assert (0 ≤ Z.of_nat m / b) by (apply Z.div_pos; lia).
    assert (Z.of_nat m / b < Z.of_nat (length (printed s))).
    { apply Z.div_lt_upper_bound; lia. }
    destruct (lookup_lt_is_Some_2 (printed s) j) as [w Hj]; [lia|].
    destruct (Hw _ _ Hj) as [Hlo Hhi].
    pose proof (Z.div_mod (Z.of_nat m) b ltac:(lia)).
    pose proof (Z.mod_pos_bound (Z.of_nat m) b b_pos).
    apply Exists_exists. exists w. split; [by eapply list_elem_of_lookup_2|].
    split.
    + eapply datelist_lookup_le; [|done..]. lia.
    + eapply datelist_lookup_le; [|done..]. lia.
Qed.

(** When the cursor is at [c], the table holds the rows dated from the
    first date to the date at index [c - 1]. *)
Lemma inv_table_prefix s lo hi :
  inv src b s → 0 < cursor s →
  keys !! 0%nat = Some lo → keys !! Z.to_nat (cursor s - 1) = Some hi →
  table s ≡ₚ select_window src (lo, hi).
Proof.
  intros Hinv Hpos Hlo Hhi. rewrite inv_table_covered by done.
  unfold select_window. erewrite filter_ext_elem; [done|].
  intros r Hr. destruct (datelist_row_lookup _ _ Hr) as [m Hm].
  rewrite (inv_covered_index _ _ _ Hinv Hm). unfold in_window; simpl. split.
  - intros Hlt. split; (eapply datelist_lookup_le; [|done..]); lia.
  - intros [_ Hle].
    pose proof (datelist_lookup_le_inv _ _ _ _ _ Hm Hhi Hle). lia.
Qed.
End Coverage.

(** ** How the loop ends on a healthy engine *)

Lemma finished_arith (b k m : Z) :
  0 < b → 0 < m → m ≤ b * k → b * k ≤ m + 1 → b * k - b < m →
  ((m mod b = 0 ∧ b * k = m) ∨ (m mod b = b - 1 ∧ m mod b ≠ 0 ∧ b * k = m + 1))
  ∧ k = ceil_div m b.
Proof.
  intros Hb Hm H1 H2 H3. unfold ceil_div.
  assert (b * k = m ∨ b * k = m + 1) as [Hk|Hk] by lia.
  - split.
    + left. split; [|done]. symmetry. apply (Z.mod_unique_pos m b k 0); lia.
    + apply (Z.div_unique_pos (m + b - 1) b k (b - 1)); lia.
  - assert (1 < b) by nia. split.
    + right. assert (m mod b = b - 1) as Hmod.
      { symmetry. apply (Z.mod_unique_pos m b (k - 1) (b - 1)); lia. }
      repeat split; lia.
    + apply (Z.div_unique_pos (m + b - 1) b k (b - 2)); lia.
Qed.

Lemma raised_arith (b k m : Z) :
  0 < b → 0 ≤ k → b * k < m → m + 1 ≤ b * k + b - 1 →
  0 < m mod b < b - 1 ∧ k = m / b.
Proof.
  intros Hb Hk H1 H2.
  assert (m mod b = m - b * k) as ->.
  { symmetry. apply (Z.mod_unique_pos m b k (m - b * k)); lia. }
  split; [lia|]. apply (Z.div_unique_pos m b k (m - b * k)); lia.
Qed.

Section Healthy.
Variable src : list row.
Variable b : Z.
Hypothesis b_pos : 0 < b.

Local Abbreviation keys := (datelist src).
Local Abbreviation n := (Z.of_nat (length (datelist src))).

(** On a healthy engine the loop either runs to its end or stops at an index
    out of range, read for the upper bound of a window. *)
Lemma healthy_Raised fuel e s :
  replay healthy src b fuel init = Raised e s →
  e = IndexError ∧ reach healthy src b s ∧ cursor s < n - 1 ∧ n ≤ cursor s + b - 1.
Proof.
  intros Hrun.
  apply replay_Raised in Hrun as (s0 & Hreach & Hlt & Hbody); [|apply reach_init].
  pose proof (reach_inv _ _ _ b_pos _ Hreach) as Hinv.
  pose proof (inv_cursor_nonneg _ _ b_pos _ Hinv) as Hc.
  unfold datelist_len in Hlt.
  apply loop_body_failure in Hbody
    as [(-> & -> & Hnone)|(w & msg & _ & _ & Hf & _)]; [|done].
  repeat split; try done.
  rewrite !py_index_nonneg in Hnone by lia.
  destruct Hnone as [Hnone|Hnone]; apply lookup_ge_None in Hnone; lia.
Qed.

Lemma healthy_outcome fuel :
  (Z.to_nat (datelist_len src) ≤ fuel)%nat →
  (∃ s, replay healthy src b fuel init = Finished s ∧
        reach healthy src b s ∧ n - 1 ≤ cursor s)
  ∨ (∃ s, replay healthy src b fuel init = Raised IndexError s ∧
        reach healthy src b s ∧ cursor s < n - 1 ∧ n ≤ cursor s + b - 1).
Proof.
  intros Hfuel. destruct (replay healthy src b fuel init) as [s|e s|s] eqn:Hrun.
  - left. exists s. split; [done|].
    by apply replay_Finished in Hrun; [|apply reach_init].
  - right. destruct (healthy_Raised _ _ _ Hrun) as (-> & ? & ? & ?). eauto.
  - exfalso. eapply (replay_enough_fuel healthy src b fuel init); [done| |done].
    simpl. by rewrite Z.sub_0_r.
Qed.

Lemma finished_shape s :
  1 < n → reach healthy src b s → n - 1 ≤ cursor s →
  ((n - 1) mod b = 0 ∧ cursor s = n - 1
   ∨ (n - 1) mod b = b - 1 ∧ (n - 1) mod b ≠ 0 ∧ cursor s = n)
  ∧ Z.of_nat (length (printed s)) = ceil_div (n - 1) b.
Proof.
  intros Hn Hreach Hstop. pose proof (reach_inv _ _ _ b_pos _ Hreach) as Hinv.
  pose proof (inv_cursor_le _ _ _ Hinv) as Hle.
  destruct Hinv as [Hc _ _ _ Hg]. rewrite Hc in *.
  assert (printed s ≠ []) as Hne by (intros Hnil; rewrite Hnil in *; simpl in *; lia).
  specialize (Hg Hne).
  destruct (finished_arith b (Z.of_nat (length (printed s))) (n - 1)) as [Hcase Hk];
    [lia..|].
  split; [|done]. destruct Hcase as [[? ?]|(? & ? & ?)]; [left|right]; repeat split; lia.
Qed.

Lemma raised_shape s :
  reach healthy src b s → cursor s < n - 1 → n ≤ cursor s + b - 1 →
  0 < (n - 1) mod b < b - 1 ∧ Z.of_nat (length (printed s)) = (n - 1) / b.
Proof.
  intros Hreach Hlt Hidx. pose proof (reach_inv _ _ _ b_pos _ Hreach) as [Hc _ _ _ _].
  rewrite Hc in *. apply raised_arith; lia.
Qed.

(** The loop runs to its end exactly when the last window ends inside
    [datelist]. *)
Lemma healthy_finishes fuel :
  1 < n → (n - 1) mod b = 0 ∨ (n - 1) mod b = b - 1 →
  (Z.to_nat (datelist_len src) ≤ fuel)%nat →
  ∃ s, replay healthy src b fuel init = Finished s ∧
       reach healthy src b s ∧ n - 1 ≤ cursor s.
Proof.
  intros Hn Hmod Hfuel.
  destruct (healthy_outcome fuel Hfuel) as [?|(s & _ & Hreach & Hlt & Hidx)]; [done|].
  destruct (raised_shape s Hreach Hlt Hidx) as [? _]. lia.
Qed.

Lemma healthy_raises fuel :
  1 < n → 0 < (n - 1) mod b < b - 1 →
  (Z.to_nat (datelist_len src) ≤ fuel)%nat →
  ∃ s, replay healthy src b fuel init = Raised IndexError s ∧
       reach healthy src b s ∧ cursor s < n - 1 ∧ n ≤ cursor s + b - 1.
Proof.
  intros Hn Hmod Hfuel.
  destruct (healthy_outcome fuel Hfuel) as [(s & _ & Hreach & Hstop)|?]; [|done].
  destruct (finished_shape s Hn Hreach Hstop) as [[[? ?]|(? & ? & ?)] _]; lia.
Qed.
End Healthy.

(** ** The store *)

Lemma fs_rm_lookup dir (fs : gmap string dataset) p :
  fs_rm dir fs !! p = if decide (under dir p) then None else fs !! p.
Proof.
  unfold fs_rm. destruct (decide (under dir p)) as [Hu|Hu].
  - apply map_lookup_filter_None. right. intros x _ Hx. by apply Hx.
  - destruct (fs !! p) as [x|] eqn:Hp.
    + by apply map_lookup_filter_Some.
    + apply map_lookup_filter_None. by left.
Qed.

(** Removing a location again after something was saved at it leaves what
    the first removal left. *)
Lemma fs_rm_save dir df (fs : gmap string dataset) :
  fs_rm dir (save_overwrite dir df (fs_rm dir fs)) = fs_rm dir fs.
Proof.
  apply map_eq. intros p. unfold save_overwrite. rewrite !fs_rm_lookup.
  destruct (decide (under dir p)) as [Hu|Hu]; [done|].
  rewrite lookup_insert_ne, fs_rm_lookup; [by rewrite decide_False|].
  intros <-. apply Hu. by left.
Qed.

Lemma parquet_not_under_delta : ¬ under deltaPricePath parquetPricePath.
Proof. by vm_compute; intros [?|?]. Qed.

Example datelist_sample : datelist (sample_src 4) = [1; 2; 3; 4].
Proof. vm_compute. reflexivity. Qed.

Example replay_sample_4 :
  printed <$> (match replay healthy (sample_src 4) 3 10 init with
               | Finished s => Some s | _ => None end) = Some [(1, 3)].
Proof. vm_compute. reflexivity. Qed.

Lemma sample_dates_2 : datelist (sample_src 2) = [1; 2].
Proof. by vm_compute. Qed.

Lemma sample_dates_5 : datelist (sample_src 5) = [1; 2; 3; 4; 5].
Proof. by vm_compute. Qed.

Lemma sample_dates_6 : datelist (sample_src 6) = [1; 2; 3; 4; 5; 6].
Proof. by vm_compute. Qed.

(** * The claims *)

(** ** The index of the upper bound *)

(** C1 (defect of the code): the upper bound of a window is read at
    [i + daysAtOnce - 1], with no clamp to the last index. With two distinct
    dates and the notebook's [daysAtOnce = 3] the loop is entered at [i = 0],
    index [2] is outside [datelist], and the cell stops with an index error
    before anything is inserted. *)
Theorem C1_upper_index_unclamped :
  cursor init < datelist_len (sample_src 2) ∧
  py_index (datelist (sample_src 2)) (cursor init + daysAtOnce_default - 1) = None ∧
  replay healthy (sample_src 2) daysAtOnce_default 1 init = Raised IndexError init.
Proof. repeat split; by vm_compute. Qed.

(** ** The number of batches *)

(** C2 (defect of the code): with five distinct dates and [daysAtOnce = 3]
    the replay should append [ceil(4 / 3) = 2] batches; the loop appends one,
    then stops with an index error on the second, and no amount of fuel makes
    it finish. *)
Theorem C2_one_batch_of_two :
  ceil_div (Z.of_nat (length (datelist (sample_src 5))) - 1) daysAtOnce_default = 2 ∧
  (∃ s, replay healthy (sample_src 5) daysAtOnce_default 2 init = Raised IndexError s ∧
        printed s = [(1, 3)] ∧ cursor s = 3) ∧
  ¬ appends_ceil_batches (sample_src 5) daysAtOnce_default.
Proof.
  split; [by vm_compute|]. split.
  - eexists. split; [by vm_compute|]. done.
  - intros (fuel & s & Hrun & _).
    apply replay_Finished in Hrun as [Hreach Hstop]; [|apply reach_init].
    unfold datelist_len in Hstop.
    destruct (finished_shape (sample_src 5) daysAtOnce_default) with (s := s)
      as [Hcase _]; [done|by rewrite sample_dates_5|done..|].
    rewrite sample_dates_5 in Hcase. vm_compute in Hcase.
    destruct Hcase as [[? _]|[? _]]; done.
Qed.

(** ** At most one distinct date *)

(** C7: when the source has at most one distinct date (it may be empty),
    the loop condition [0 < len(datelist) - 1] is false at once: whatever the
    step and the engine, the cell ends normally in the initial state, with
    nothing inserted, nothing printed and no index read. *)
Theorem C7_no_batch_below_two_dates (fault : list row → Z * Z → option string)
    (src : list row) (b : Z) (fuel : nat) :
  (length (datelist src) ≤ 1)%nat →
  replay fault src b fuel init = Finished init ∧
  table init = [] ∧ issued init = [] ∧ printed init = [].
Proof.
  intros Hlen. split; [|done]. apply replay_stop. unfold datelist_len. simpl. lia.
Qed.

Lemma C7_no_batch_below_two_dates_witness :
  replay healthy (sample_src 1) daysAtOnce_default 5 init = Finished init ∧
  table init = [] ∧ issued init = [] ∧ printed init = [].
Proof.
  apply (C7_no_batch_below_two_dates healthy (sample_src 1) daysAtOnce_default 5).
  vm_compute. lia.
Defined.

(** ** The rows in the table *)

(** Let the source have more than one distinct date and let the replay
    run to its end, on a healthy engine and with a positive step [b]. If [b]
    divides [n - 1] the table holds, up to the order of rows, exactly the
    source rows dated within [keys[0], keys[n-2]], and no row of the last
    date [keys[n-1]]. Otherwise the last window ends at the last index
    [n - 1], and the table holds the rows dated within [keys[0], keys[n-1]]. *)
Theorem rows_when_replay_completes (src : list row) (b : Z) (fuel : nat) (s : state) :
  0 < b → (1 < length (datelist src))%nat →
  replay healthy src b fuel init = Finished s →
  let keys := datelist src in
  let n := length keys in
  ((Z.of_nat n - 1) mod b = 0 →
    ∃ lo hi last_date,
      keys !! 0%nat = Some lo ∧ keys !! (n - 2)%nat = Some hi ∧
      keys !! (n - 1)%nat = Some last_date ∧
      table s ≡ₚ select_window src (lo, hi) ∧
      ∀ r, r ∈ table s → price_date r ≠ last_date)
  ∧ ((Z.of_nat n - 1) mod b ≠ 0 →
    ∃ lo hi w,
      keys !! 0%nat = Some lo ∧ keys !! (n - 1)%nat = Some hi ∧
      last (printed s) = Some w ∧ w.2 = hi ∧
      table s ≡ₚ select_window src (lo, hi)).
Proof.
  intros Hb Hn Hrun keys n. subst keys n.
  apply replay_Finished in Hrun as [Hreach Hstop]; [|apply reach_init].
  unfold datelist_len in Hstop.
  pose proof (reach_inv _ _ _ Hb _ Hreach) as Hinv.
  destruct (finished_shape src b Hb s) as [Hcase _]; [lia|done|done|].
  destruct (lookup_lt_is_Some_2 (datelist src) 0) as [lo Hlo]; [lia|].
  destruct (lookup_lt_is_Some_2 (datelist src) (length (datelist src) - 1)) as [last_date Hlast]; [lia|].
  split; intros Hmod.
  - destruct Hcase as [[_ Hc]|(_ & ? & _)]; [|done].
    destruct (lookup_lt_is_Some_2 (datelist src) (length (datelist src) - 2)) as [hi Hhi]; [lia|].
    assert (table s ≡ₚ select_window src (lo, hi)) as Htable.
    { apply (inv_table_prefix src b Hb); [done|lia|done|].
      by replace (Z.to_nat (cursor s - 1)) with (length (datelist src) - 2)%nat by lia. }
    exists lo, hi, last_date. repeat split; try done.
    intros r Hr. rewrite Htable in Hr.
    apply list_elem_of_filter in Hr as [[_ Hle] _]. simpl in Hle.
    assert (hi < last_date); [|lia].
    eapply (datelist_lookup_lt src (length (datelist src) - 2) (length (datelist src) - 1)); [lia|done..].
  - destruct Hcase as [[? _]|(_ & _ & Hc)]; [done|].
    assert (table s ≡ₚ select_window src (lo, last_date)) as Htable.
    { apply (inv_table_prefix src b Hb); [done|lia|done|].
      by replace (Z.to_nat (cursor s - 1)) with (length (datelist src) - 1)%nat by lia. }
    pose proof (inv_cursor _ _ _ Hinv) as Hlen.
    destruct (lookup_lt_is_Some_2 (printed s) (pred (length (printed s))))
      as [w Hw]; [destruct (printed s); simpl in *; lia|].
    exists lo, last_date, w. repeat split; try done.
    + by rewrite last_lookup.
    + destruct (inv_windows _ _ _ Hinv _ _ Hw) as [_ Hhi].
      assert (length (printed s) ≠ 0%nat) by (intros H0; rewrite H0 in Hlen; lia).
      replace (Z.of_nat (pred (length (printed s))))
        with (Z.of_nat (length (printed s)) - 1) in Hhi by lia.
      replace (b * (Z.of_nat (length (printed s)) - 1) + b - 1)
        with (cursor s - 1) in Hhi by lia.
      replace (Z.to_nat (cursor s - 1))
        with (length (datelist src) - 1)%nat in Hhi by lia.
      congruence.
Qed.

Lemma rows_when_replay_completes_sample :
  let s := outcome_state (replay healthy (sample_src 4) 3 5 init) in
  let keys := datelist (sample_src 4) in
  ((Z.of_nat 4 - 1) mod 3 = 0 →
    ∃ lo hi last_date,
      keys !! 0%nat = Some lo ∧ keys !! 2%nat = Some hi ∧
      keys !! 3%nat = Some last_date ∧
      table s ≡ₚ select_window (sample_src 4) (lo, hi) ∧
      ∀ r, r ∈ table s → price_date r ≠ last_date)
  ∧ ((Z.of_nat 4 - 1) mod 3 ≠ 0 →
    ∃ lo hi w,
      keys !! 0%nat = Some lo ∧ keys !! 3%nat = Some hi ∧
      last (printed s) = Some w ∧ w.2 = hi ∧
      table s ≡ₚ select_window (sample_src 4) (lo, hi)).
Proof.
  apply (rows_when_replay_completes (sample_src 4) 3 5).
  - lia.
  - vm_compute. lia.
  - vm_compute. reflexivity.
Defined.

(** C3 (defect of the code): with five distinct dates and [daysAtOnce = 3]
    the table should end up with the rows dated within [keys[0], keys[3]].
    The loop never runs to its end: it appends the first window and stops
    with an index error on the upper bound of the second, so the table holds
    the rows of the first three dates only and lacks those of [keys[3]]. *)
Theorem C3_rows_before_last_missing :
  (∀ fuel s, replay healthy (sample_src 5) daysAtOnce_default fuel init ≠ Finished s)
  ∧ datelist (sample_src 5) !! 0%nat = Some 1
  ∧ datelist (sample_src 5) !! (length (datelist (sample_src 5)) - 2)%nat = Some 4
  ∧ ∃ s, replay healthy (sample_src 5) daysAtOnce_default 4 init = Raised IndexError s
         ∧ table s = select_window (sample_src 5) (1, 3)
         ∧ ¬ table s ≡ₚ select_window (sample_src 5) (1, 4)
         ∧ ∃ r, r ∈ sample_src 5 ∧ price_date r = 4 ∧ r ∉ table s.
Proof.
  split; [|split; [by vm_compute|split; [by vm_compute|]]].
  - intros fuel s Hrun.
    apply replay_Finished in Hrun as [Hreach Hstop]; [|apply reach_init].
    unfold datelist_len in Hstop.
    destruct (finished_shape (sample_src 5) daysAtOnce_default) with (s := s)
      as [Hcase _]; [done|by rewrite sample_dates_5|done..|].
    rewrite sample_dates_5 in Hcase. vm_compute in Hcase.
    destruct Hcase as [[? _]|[? _]]; done.
  - eexists. split; [by vm_compute|]. split; [by vm_compute|]. split.
    + intros Hperm%Permutation_length. vm_compute in Hperm. done.
    + exists (sample_row "MSFT" 4). split; [|split; [done|]].
      * apply list_elem_of_In. vm_compute. tauto.
      * intros Hin%list_elem_of_In. vm_compute in Hin.
        repeat (destruct Hin as [Hin|Hin]; [discriminate Hin|]). done.
Qed.

(** Three dates and a step of three: [n - 1 = 2] is not a multiple of the
    step, the one window ends at the last index, and every row is inserted. *)
Example rows_three_dates :
  let s := outcome_state (replay healthy (sample_src 3) 3 5 init) in
  replay healthy (sample_src 3) 3 5 init = Finished s ∧
  printed s = [(1, 3)] ∧ table s = sample_src 3.
Proof. repeat split; by vm_compute. Qed.

(** C4: after every completed batch of a replay that starts on the empty
    table, with a positive step, the table holds exactly the source rows
    dated within one of the windows of the batches done so far, each as
    often as the source has it (a permutation of the source filtered by
    the windows). The states concerned are those the loop passes through. *)
Theorem C4_table_is_union_of_batches
    (fault : list row → Z * Z → option string) (src : list row) (b : Z) (s : state) :
  0 < b → reach fault src b s →
  table s ≡ₚ filter (covered (printed s)) src ∧
  ∃ k, ∀ fuel, replay fault src b (k + fuel) init = replay fault src b fuel s.
Proof.
  intros Hb Hreach. split; [|by apply reach_replay].
  apply (inv_table_covered src b Hb). by eapply reach_inv.
Qed.

Lemma C4_table_is_union_of_batches_witness :
  let s := outcome_state (replay healthy (sample_src 7) 3 9 init) in
  table s ≡ₚ filter (covered (printed s)) (sample_src 7) ∧
  ∃ k, ∀ fuel, replay healthy (sample_src 7) 3 (k + fuel) init
               = replay healthy (sample_src 7) 3 fuel s.
Proof.
  apply (C4_table_is_union_of_batches healthy (sample_src 7) 3).
  - lia.
  - apply (replay_Finished healthy (sample_src 7) 3 9 init); [apply reach_init|].
    vm_compute. reflexivity.
Defined.

(** ** The order of the batches *)

(** C5: with a positive step, of two batches appended one before the other
    the earlier one ends strictly before the later one starts (so the later
    [batchMin] is not less than the earlier [batchMax]), each window has its
    bounds in order, and the table is the batches' rows one batch after the
    other, in the order of the batches. *)
Theorem C5_batches_ascending
    (fault : list row → Z * Z → option string) (src : list row) (b : Z) (s : state)
    (i j : nat) (w1 w2 : Z * Z) :
  0 < b → reach fault src b s → (i < j)%nat →
  printed s !! i = Some w1 → printed s !! j = Some w2 →
  (w1.1 ≤ w1.2 ∧ w1.2 < w2.1 ∧ w2.1 ≤ w2.2) ∧ ¬ w2.1 < w1.2 ∧
  table s = mjoin (select_window src <$> printed s).
Proof.
  intros Hb Hreach Hij H1 H2. pose proof (reach_inv _ _ _ Hb _ Hreach) as Hinv.
  pose proof (inv_windows_ascending src b Hb s i j w1 w2 Hinv Hij H1 H2).
  pose proof (inv_window_le src b Hb s i w1 Hinv H1).
  pose proof (inv_window_le src b Hb s j w2 Hinv H2).
  repeat split; try lia. by apply (inv_table src b).
Qed.

Lemma C5_batches_ascending_witness :
  let s := outcome_state (replay healthy (sample_src 7) 3 9 init) in
  ((1, 3).1 ≤ (1, 3).2 ∧ (1, 3).2 < (4, 6).1 ∧ (4, 6).1 ≤ (4, 6).2) ∧
  ¬ (4, 6).1 < (1, 3).2 ∧
  table s = mjoin (select_window (sample_src 7) <$> printed s).
Proof.
  apply (C5_batches_ascending healthy (sample_src 7) 3 _ 0 1 (1, 3) (4, 6)).
  - lia.
  - apply (replay_Finished healthy (sample_src 7) 3 9 init); [apply reach_init|].
    vm_compute. reflexivity.
  - lia.
  - vm_compute. reflexivity.
  - vm_compute. reflexivity.
Defined.

(** ** A failing insert *)

(** C6, as it stands, fails: what reaches the caller is the engine's own
    exception, and no range can be read off it. The same exception leaves
    the cell when the engine refuses the first window and when it refuses
    the second. *)
Lemma C6_failure_carries_no_range : ¬ ∃ read, range_reported read.
Proof.
  intros [read Hread].
  assert (read (SparkError "storage unavailable") = Some (1, 3)) as H1.
  { eapply (Hread (fails_at (1, 3) "storage unavailable") (sample_src 7) 3 9%nat);
      by vm_compute. }
  assert (read (SparkError "storage unavailable") = Some (4, 6)) as H2.
  { eapply (Hread (fails_at (4, 6) "storage unavailable") (sample_src 7) 3 9%nat);
      by vm_compute. }
  congruence.
Qed.

(** Where an engine's exception comes from: when a run ends in one, with a
    positive step, the statement that failed is the last one issued and is
    the window at the cursor; no progress line was printed for it; and the
    table holds exactly the rows of the batches before it. *)
Lemma engine_error_origin
    (fault : list row → Z * Z → option string) (src : list row) (b : Z)
    (fuel : nat) (msg : string) (s : state) :
  0 < b → replay fault src b fuel init = Raised (SparkError msg) s →
  ∃ w, issued s = printed s ++ [w] ∧
       py_index (datelist src) (cursor s) = Some w.1 ∧
       py_index (datelist src) (cursor s + b - 1) = Some w.2 ∧
       fault (table s) w = Some msg ∧
       cursor s = b * Z.of_nat (length (printed s)) ∧
       table s ≡ₚ filter (covered (printed s)) src.
Proof.
  intros Hb Hrun.
  apply replay_Raised in Hrun as (s0 & Hreach & _ & Hbody); [|apply reach_init].
  pose proof (reach_inv _ _ _ Hb _ Hreach) as Hinv.
  apply loop_body_failure in Hbody
    as [([=] & _)|(w & msg' & Hlo & Hhi & Hf & [= <-] & ->)].
  exists w. simpl. repeat split; try done.
  - by rewrite (inv_issued _ _ _ Hinv).
  - by apply (inv_cursor src b).
  - by apply (inv_table_covered src b Hb).
Qed.

Lemma engine_error_origin_sample :
  let fault := fails_at (4, 6) "storage unavailable" in
  let s := outcome_state (replay fault (sample_src 7) 3 9 init) in
  ∃ w, issued s = printed s ++ [w] ∧
       py_index (datelist (sample_src 7)) (cursor s) = Some w.1 ∧
       py_index (datelist (sample_src 7)) (cursor s + 3 - 1) = Some w.2 ∧
       fault (table s) w = Some "storage unavailable" ∧
       cursor s = 3 * Z.of_nat (length (printed s)) ∧
       table s ≡ₚ filter (covered (printed s)) (sample_src 7).
Proof.
  apply (engine_error_origin _ (sample_src 7) 3 9).
  - lia.
  - vm_compute. reflexivity.
Defined.

(** The loop reaches a state after as many iterations as it has printed
    progress lines. *)
Lemma reach_replay_printed (fault : list row → Z * Z → option string)
    (src : list row) (b : Z) (s : state) :
  reach fault src b s →
  ∀ fuel, replay fault src b (length (printed s) + fuel) init
          = replay fault src b fuel s.
Proof.
  induction 1 as [|s s' _ IH Hlt Hbody]; [done|]. intros fuel.
  pose proof Hbody as Hs'. apply loop_body_success in Hs' as (w & _ & _ & _ & ->).
  simpl. rewrite length_app. simpl.
  replace (length (printed s) + 1 + fuel)%nat
    with (length (printed s) + S fuel)%nat by lia.
  by rewrite IH, replay_unfold, bool_decide_eq_true_2, Hbody.
Qed.

(** C6 (amended): let the loop have completed some batches, with a positive
    step, and let the engine refuse the insert of the next window [w] with
    the message [msg]. Then every run that is allowed more iterations than
    the batches completed ends in the engine's exception, with that message
    and nothing added to it. The loop goes no further: the refused statement
    is the last one issued, the cursor is where the refused batch starts, no
    progress line is printed for it, and the table is as the batches before
    left it, holding exactly their rows. *)
Theorem C6_engine_failure_halts
    (fault : list row → Z * Z → option string) (src : list row) (b : Z)
    (s0 : state) (w : Z * Z) (msg : string) (fuel : nat) :
  0 < b → reach fault src b s0 → cursor s0 < datelist_len src →
  py_index (datelist src) (cursor s0) = Some w.1 →
  py_index (datelist src) (cursor s0 + b - 1) = Some w.2 →
  fault (table s0) w = Some msg →
  (length (printed s0) < fuel)%nat →
  replay fault src b fuel init
    = Raised (SparkError msg)
             (State (cursor s0) (table s0) (printed s0 ++ [w]) (printed s0))
  ∧ cursor s0 = b * Z.of_nat (length (printed s0))
  ∧ table s0 = mjoin (select_window src <$> printed s0)
  ∧ table s0 ≡ₚ filter (covered (printed s0)) src.
Proof.
  intros Hb Hreach Hlt Hlo Hhi Hfault Hfuel.
  pose proof (reach_inv _ _ _ Hb _ Hreach) as Hinv.
  split; [|split; [by apply (inv_cursor src b)|split;
    [by apply (inv_table src b)|by apply (inv_table_covered src b Hb)]]].
  replace fuel with (length (printed s0) + S (fuel - length (printed s0) - 1))%nat
    by lia.
  rewrite (reach_replay_printed fault src b s0 Hreach), replay_unfold.
  rewrite bool_decide_eq_true_2 by done.
  unfold loop_body, spark_sql_insert. destruct w as [lo hi]. simpl in Hlo, Hhi.
  by rewrite Hlo, Hhi, Hfault, (inv_issued _ _ _ Hinv).
Qed.

Lemma C6_engine_failure_halts_witness :
  let fault := fails_at (4, 6) "storage unavailable" in
  let s0 := outcome_state (replay fault (sample_src 10) 3 1 init) in
  replay fault (sample_src 10) 3 9 init
    = Raised (SparkError "storage unavailable")
             (State (cursor s0) (table s0) (printed s0 ++ [(4, 6)]) (printed s0))
  ∧ cursor s0 = 3 * Z.of_nat (length (printed s0))
  ∧ table s0 = mjoin (select_window (sample_src 10) <$> printed s0)
  ∧ table s0 ≡ₚ filter (covered (printed s0)) (sample_src 10).
Proof.
  apply (C6_engine_failure_halts (fails_at (4, 6) "storage unavailable")
           (sample_src 10) 3 _ (4, 6) "storage unavailable" 9).
  - lia.
  - apply (replay_Running (fails_at (4, 6) "storage unavailable")
             (sample_src 10) 3 1 init); [apply reach_init|].
    vm_compute. reflexivity.
  - vm_compute. reflexivity.
  - vm_compute. reflexivity.
  - vm_compute. reflexivity.
  - vm_compute. reflexivity.
  - vm_compute. lia.
Defined.

(** The scenario of the specification: the engine refuses the second batch.
    The table holds the first batch's rows, and the third window is never
    issued. *)
Example second_batch_refused :
  let s := outcome_state
             (replay (fails_at (4, 6) "storage unavailable") (sample_src 10) 3 9 init) in
  table s = select_window (sample_src 10) (1, 3) ∧
  issued s = [(1, 3); (4, 6)] ∧ printed s = [(1, 3)] ∧ cursor s = 3.
Proof. repeat split; by vm_compute. Qed.

(** ** A step that is not positive *)

(** C8, as it stands, fails: with a step of zero and two distinct dates no
    run ends in an exception, and the first iteration has already inserted
    rows. *)
Lemma C8_zero_step_not_rejected :
  ¬ fails_fast (sample_src 2) 0 ∧
  ∃ s, replay healthy (sample_src 2) 0 1 init = Running s ∧ table s ≠ [].
Proof.
  split.
  - intros (fuel & e & s & Hrun & _).
    apply replay_Raised in Hrun as (s0 & Hreach & _ & Hbody); [|apply reach_init].
    apply reach_step_zero in Hreach; [|done].
    apply loop_body_failure in Hbody as [(_ & _ & Hnone)|(w & msg & _ & _ & Hf & _)];
      [|done].
    rewrite Hreach, sample_dates_2 in Hnone. vm_compute in Hnone.
    by destruct Hnone.
  - eexists. split; [by vm_compute|]. done.
Qed.

(** C8 (amended): the notebook checks nothing about the step. With a step
    [b ≤ 0] and more than one distinct date the loop is entered. If
    [1 - n ≤ b], the first iteration raises nothing and inserts the rows
    dated within [keys[0], keys[n - 1 + b]], of which there is at least one.
    If [b < 1 - n], the first iteration stops with an index error, the table
    still empty. *)
Theorem C8_nonpositive_step_unchecked (src : list row) (b : Z) :
  b ≤ 0 → (1 < length (datelist src))%nat →
  (1 - Z.of_nat (length (datelist src)) ≤ b →
    ∃ lo hi s,
      datelist src !! 0%nat = Some lo ∧
      datelist src !! Z.to_nat (Z.of_nat (length (datelist src)) - 1 + b) = Some hi ∧
      loop_body healthy src b init = inr s ∧ reach healthy src b s ∧
      table s = select_window src (lo, hi) ∧ table s ≠ [])
  ∧ (b < 1 - Z.of_nat (length (datelist src)) →
    ∀ fuel, replay healthy src b (S fuel) init = Raised IndexError init).
Proof.
  intros Hb Hn.
  destruct (lookup_lt_is_Some_2 (datelist src) 0) as [lo Hlo]; [lia|].
  assert (py_index (datelist src) 0 = Some lo) as Hmin by (by rewrite py_index_nonneg).
  split; intros Hrange.
  - destruct (lookup_lt_is_Some_2 (datelist src)
                (Z.to_nat (Z.of_nat (length (datelist src)) - 1 + b)))
      as [hi Hhi]; [lia|].
    assert (py_index (datelist src) (0 + b - 1) = Some hi) as Hmax.
    { unfold py_index. rewrite bool_decide_eq_false_2, bool_decide_eq_true_2 by lia.
      rewrite <- Hhi. f_equal. lia. }
    assert (loop_body healthy src b init
            = inr (State (0 + b) (select_window src (lo, hi)) [(lo, hi)] [(lo, hi)]))
      as Hbody.
    { unfold loop_body, spark_sql_insert. simpl. by rewrite Hmin, Hmax. }
    eexists lo, hi, _. repeat split; try done.
    + eapply reach_step; [apply reach_init| |done]. unfold datelist_len. simpl. lia.
    + simpl. pose proof (list_elem_of_lookup_2 _ _ _ Hlo) as Hin0.
      apply datelist_elem_of in Hin0 as (r & Hr & Hdate).
      assert (lo ≤ hi) by (eapply (datelist_lookup_le src 0); [|done..]; lia).
      assert (r ∈ select_window src (lo, hi)) as Hin.
      { apply list_elem_of_filter. split; [|done]. split; simpl; lia. }
      intros Heq. rewrite Heq in Hin. by apply not_elem_of_nil in Hin.
  - intros fuel. rewrite replay_unfold, bool_decide_eq_true_2
      by (unfold datelist_len; simpl; lia).
    unfold loop_body. simpl. rewrite Hmin.
    assert (py_index (datelist src) (0 + b - 1) = None) as ->; [|done].
    unfold py_index. by rewrite !bool_decide_eq_false_2 by lia.
Qed.

Lemma C8_nonpositive_step_unchecked_witness :
  (1 - Z.of_nat (length (datelist (sample_src 3))) ≤ -1 →
    ∃ lo hi s,
      datelist (sample_src 3) !! 0%nat = Some lo ∧
      datelist (sample_src 3)
        !! Z.to_nat (Z.of_nat (length (datelist (sample_src 3))) - 1 + -1) = Some hi ∧
      loop_body healthy (sample_src 3) (-1) init = inr s ∧
      reach healthy (sample_src 3) (-1) s ∧
      table s = select_window (sample_src 3) (lo, hi) ∧ table s ≠ [])
  ∧ (-1 < 1 - Z.of_nat (length (datelist (sample_src 3))) →
    ∀ fuel, replay healthy (sample_src 3) (-1) (S fuel) init = Raised IndexError init).
Proof.
  apply (C8_nonpositive_step_unchecked (sample_src 3) (-1)).
  - lia.
  - vm_compute. lia.
Defined.

(** ** The bootstrap *)

(** C9: the bootstrap of the price table (remove the delta location with
    all below it, read the parquet data, keep no row of it, save that at the
    delta location) gives, run again on its own result, the same store; and
    in that store the delta location holds an empty table with the schema of
    the parquet data. *)
Theorem C9_bootstrap_idempotent (fs fs' : gmap string dataset) :
  bootstrap_price_table fs = Some fs' →
  bootstrap_price_table fs' = Some fs' ∧
  ∃ df, read_parquet fs parquetPricePath = Some df ∧
        fs' !! deltaPricePath = Some (Dataset (schema df) []).
Proof.
  unfold bootstrap_price_table, read_parquet. simpl.
  rewrite fs_rm_lookup, decide_False by apply parquet_not_under_delta.
  destruct (fs !! parquetPricePath) as [df|] eqn:Hdf; [|done].
  simpl. intros [= <-]. split.
  - rewrite fs_rm_save, fs_rm_lookup, decide_False by apply parquet_not_under_delta.
    by rewrite Hdf.
  - exists df. split; [done|]. unfold save_overwrite. by rewrite lookup_insert_eq.
Qed.

Lemma C9_bootstrap_idempotent_witness :
  let fs' := default ∅ (bootstrap_price_table sample_store) in
  bootstrap_price_table fs' = Some fs' ∧
  ∃ df, read_parquet sample_store parquetPricePath = Some df ∧
        fs' !! deltaPricePath = Some (Dataset (schema df) []).
Proof.
  apply (C9_bootstrap_idempotent sample_store).
  vm_compute. reflexivity.
Defined.

(** The older table and its log are gone after the bootstrap. *)
Example bootstrap_sample :
  (default ∅ (bootstrap_price_table sample_store)) !! (deltaPricePath +:+ "/_delta_log") = None ∧
  (default ∅ (bootstrap_price_table sample_store)) !! deltaPricePath
    = Some (Dataset ["ticker"; "price_date"; "close"] []).
Proof. split; by vm_compute. Qed.

(** ** The index error at the end of the list *)

(** C10, as it stands, fails: with six distinct dates and a step of three,
    [n - 1 = 5] is not a multiple of the step, yet the second window ends at
    the last index and the loop finishes with no index error. *)
Lemma C10_six_dates_no_index_error :
  (Z.of_nat (length (datelist (sample_src 6))) - 1) mod 3 ≠ 0 ∧
  ¬ index_fault_after_floor (sample_src 6) 3 ∧
  ∃ s, replay healthy (sample_src 6) 3 5 init = Finished s ∧
       printed s = [(1, 3); (4, 6)].
Proof.
  split; [by vm_compute|]. split.
  - intros (fuel & s & Hrun & _).
    apply healthy_Raised in Hrun as (_ & Hreach & Hlt & Hidx); [|done].
    destruct (raised_shape (sample_src 6) 3) with (s := s) as [Hmod _]; try done.
    rewrite sample_dates_6 in Hmod. vm_compute in Hmod. by destruct Hmod.
  - eexists. split; [by vm_compute|]. done.
Qed.

(** C10 (amended): let the source have [n > 1] distinct dates and let the
    step [b] be positive with [0 < (n - 1) mod b < b - 1]. Then the replay,
    on a healthy engine and given [n - 1] iterations of fuel or more, stops
    with an index error: the cursor is below [n - 1], the index
    [cursor + b - 1] of the upper bound is [n] or more, exactly
    [floor((n - 1) / b)] batches were appended before, and the table holds
    exactly the rows of those batches. (When [(n - 1) mod b = b - 1] the last
    window ends at the last index and the loop finishes.) *)
Theorem C10_index_error_after_floor (src : list row) (b : Z) (fuel : nat) :
  0 < b → (1 < length (datelist src))%nat →
  0 < (Z.of_nat (length (datelist src)) - 1) mod b < b - 1 →
  (length (datelist src) - 1 ≤ fuel)%nat →
  ∃ s, replay healthy src b fuel init = Raised IndexError s ∧
       cursor s < Z.of_nat (length (datelist src)) - 1 ∧
       Z.of_nat (length (datelist src)) ≤ cursor s + b - 1 ∧
       Z.of_nat (length (printed s)) = (Z.of_nat (length (datelist src)) - 1) / b ∧
       issued s = printed s ∧
       table s ≡ₚ filter (covered (printed s)) src.
Proof.
  intros Hb Hn Hmod Hfuel.
  destruct (healthy_raises src b Hb fuel) as (s & Hrun & Hreach & Hlt & Hidx);
    [lia|done|unfold datelist_len; lia|].
  pose proof (reach_inv _ _ _ Hb _ Hreach) as Hinv.
  destruct (raised_shape src b Hb s Hreach Hlt Hidx) as [_ Hlen].
  exists s. repeat split; try done.
  - by apply (inv_issued src b).
  - by apply (inv_table_covered src b Hb).
Qed.

Lemma C10_index_error_after_floor_witness :
  ∃ s, replay healthy (sample_src 5) 3 4 init = Raised IndexError s ∧
       cursor s < Z.of_nat (length (datelist (sample_src 5))) - 1 ∧
       Z.of_nat (length (datelist (sample_src 5))) ≤ cursor s + 3 - 1 ∧
       Z.of_nat (length (printed s))
         = (Z.of_nat (length (datelist (sample_src 5))) - 1) / 3 ∧
       issued s = printed s ∧
       table s ≡ₚ filter (covered (printed s)) (sample_src 5).
Proof.
  apply (C10_index_error_after_floor (sample_src 5) 3 4).
  - lia.
  - vm_compute. lia.
  - vm_compute. split; reflexivity.
  - vm_compute. lia.
Defined.

(** * More about the loop *)

Lemma length_remove_dups_le `{EqDecision A} (l : list A) :
  (length (remove_dups l) ≤ length l)%nat.
Proof.
  induction l as [|a l IH]; [done|]. simpl.
  destruct (decide_rel elem_of a l); simpl; lia.
Qed.

Lemma filter_all {A} (P : A → Prop) `{!∀ x, Decision (P x)} (l : list A) :
  (∀ x, x ∈ l → P x) → filter P l = l.
Proof.
  induction l as [|a l IH]; intros HP; [done|].
  rewrite filter_cons_True by (apply HP; left).
  f_equal. apply IH. intros x Hx. apply HP. by right.
Qed.

Lemma filter_none {A} (P : A → Prop) `{!∀ x, Decision (P x)} (l : list A) :
  (∀ x, x ∈ l → ¬ P x) → filter P l = [].
Proof.
  induction l as [|a l IH]; intros HP; [done|].
  rewrite filter_cons_False by (apply HP; left).
  apply IH. intros x Hx. apply HP. by right.
Qed.

Section Runs.
Variable fault : engine.
Variable src : list row.
Variable b : Z.

(** Whatever way a run ends, its table, its progress lines and its cursor
    are those of a state the loop has passed through. *)
Lemma outcome_reach fuel :
  ∃ s0, reach fault src b s0 ∧
    table (outcome_state (replay fault src b fuel init)) = table s0 ∧
    printed (outcome_state (replay fault src b fuel init)) = printed s0 ∧
    cursor (outcome_state (replay fault src b fuel init)) = cursor s0.
Proof.
  destruct (replay fault src b fuel init) as [s|e s|s] eqn:Hrun; simpl.
  - apply replay_Finished in Hrun as [? _]; [eauto|apply reach_init].
  - apply replay_Raised in Hrun as (s0 & Hreach & _ & Hbody); [|apply reach_init].
    exists s0. split; [done|].
    by apply loop_body_failure in Hbody as [(_ & -> & _)|(w & msg & _ & _ & _ & _ & ->)].
  - apply replay_Running in Hrun as [? _]; [eauto|apply reach_init].
Qed.

Lemma reach_rows_covered s :
  reach fault src b s → Forall (λ r, r ∈ src ∧ covered (printed s) r) (table s).
Proof.
  induction 1 as [|s s' _ IH _ Hbody]; [by apply Forall_nil|].
  apply loop_body_success in Hbody as (w & _ & _ & _ & ->). simpl.
  apply Forall_app. split.
  - eapply Forall_impl; [done|]. intros r [? Hcov]. split; [done|].
    apply Exists_app. by left.
  - apply Forall_forall. intros r [Hw Hr]%list_elem_of_filter. split; [done|].
    apply Exists_app. right. by apply Exists_cons_hd.
Qed.

Lemma replay_table_prefix fuel s :
  table s `prefix_of` table (outcome_state (replay fault src b fuel s)) ∧
  printed s `prefix_of` printed (outcome_state (replay fault src b fuel s)).
Proof.
  revert s. induction fuel as [|fuel IH]; intros s; simpl; case_bool_decide; try done.
  destruct (loop_body fault src b s) as [[e s1]|s1] eqn:Hbody; simpl.
  - by apply loop_body_failure in Hbody as [(_ & -> & _)|(w & msg & _ & _ & _ & _ & ->)].
  - destruct (IH s1) as [Ht Hp].
    apply loop_body_success in Hbody as (w & _ & _ & _ & ->). simpl in *. split.
    + etrans; [|done]. by apply prefix_app_r.
    + etrans; [|done]. by apply prefix_app_r.
Qed.

Lemma reach_cursor_multiple s :
  reach fault src b s → cursor s = b * Z.of_nat (length (printed s)).
Proof.
  induction 1 as [|s s' _ IH _ Hbody]; [simpl; lia|].
  apply loop_body_success in Hbody as (w & _ & _ & _ & ->). simpl.
  rewrite length_app. simpl. lia.
Qed.
End Runs.

(** X1: [datelist], the distinct dates in ascending order, is strictly
    ascending, holds exactly the dates that some source row has, and is no
    longer than the source. *)
Theorem X1_datelist_distinct_ascending (src : list row) :
  (∀ i j x y, (i < j)%nat →
     datelist src !! i = Some x → datelist src !! j = Some y → x < y)
  ∧ (∀ d, d ∈ datelist src ↔ ∃ r, r ∈ src ∧ price_date r = d)
  ∧ (length (datelist src) ≤ length src)%nat.
Proof.
  split; [|split].
  - intros i j x y. apply datelist_lookup_lt.
  - apply datelist_elem_of.
  - unfold datelist. rewrite (Permutation_length (merge_sort_Permutation _ _)).
    etrans; [apply length_remove_dups_le|]. by rewrite length_fmap.
Qed.

(** X2: with a positive step the loop ends, whatever the engine does: given
    [len(datelist) - 1] iterations it has finished or raised, and it has
    completed at most [len(datelist) - 1] batches. *)
Theorem X2_loop_ends (fault : list row → Z * Z → option string)
    (src : list row) (b : Z) (fuel : nat) :
  0 < b → (length (datelist src) - 1 ≤ fuel)%nat →
  (∃ s, replay fault src b fuel init = Finished s
        ∨ ∃ e, replay fault src b fuel init = Raised e s)
  ∧ (length (printed (outcome_state (replay fault src b fuel init)))
     ≤ length (datelist src) - 1)%nat.
Proof.
  intros Hb Hfuel. split.
  - destruct (replay fault src b fuel init) as [s|e s|s] eqn:Hrun; [eauto..|].
    exfalso. eapply (replay_enough_fuel fault src b fuel init); [done| |done].
    unfold datelist_len. simpl. lia.
  - destruct (outcome_reach fault src b fuel) as (s0 & Hreach & _ & -> & _).
    pose proof (reach_inv _ _ _ Hb _ Hreach) as Hinv.
    pose proof (inv_cursor _ _ _ Hinv) as Hc.
    pose proof (inv_guard _ _ _ Hinv) as Hg.
    destruct (printed s0) as [|w ws] eqn:Hp; [simpl; lia|].
    specialize (Hg ltac:(done)). simpl in *. nia.
Qed.

Lemma X2_loop_ends_witness :
  (∃ s, replay (fails_at (4, 6) "storage unavailable") (sample_src 7) 3 6 init = Finished s
        ∨ ∃ e, replay (fails_at (4, 6) "storage unavailable") (sample_src 7) 3 6 init
               = Raised e s)
  ∧ (length (printed (outcome_state
       (replay (fails_at (4, 6)%Z "storage unavailable") (sample_src 7) 3 6 init)))
     ≤ length (datelist (sample_src 7)) - 1)%nat.
Proof.
  apply (X2_loop_ends (fails_at (4, 6) "storage unavailable") (sample_src 7) 3 6).
  - lia.
  - vm_compute. lia.
Defined.

(** X3: on a healthy engine, with a positive step [b] and [n > 1] distinct
    dates, the loop runs to its end exactly when [(n - 1) mod b] is [0] or
    [b - 1]; and when it does, it has appended [ceil((n - 1) / b)] batches
    and printed a progress line for each statement issued. *)
Theorem X3_finishes_iff (src : list row) (b : Z) (fuel : nat) :
  0 < b → (1 < length (datelist src))%nat →
  (length (datelist src) - 1 ≤ fuel)%nat →
  ((∃ s, replay healthy src b fuel init = Finished s) ↔
   ((Z.of_nat (length (datelist src)) - 1) mod b = 0 ∨
    (Z.of_nat (length (datelist src)) - 1) mod b = b - 1))
  ∧ (∀ s, replay healthy src b fuel init = Finished s →
      Z.of_nat (length (printed s))
        = ceil_div (Z.of_nat (length (datelist src)) - 1) b ∧
      issued s = printed s).
Proof.
  intros Hb Hn Hfuel. split; [split|].
  - intros [s Hrun].
    apply replay_Finished in Hrun as [Hreach Hstop]; [|apply reach_init].
    unfold datelist_len in Hstop.
    destruct (finished_shape src b Hb s) as [[[? _]|(? & _)] _]; auto with lia.
  - intros Hmod.
    destruct (healthy_finishes src b Hb fuel) as (s & Hrun & _);
      [lia|done|unfold datelist_len; lia|eauto].
  - intros s Hrun.
    apply replay_Finished in Hrun as [Hreach Hstop]; [|apply reach_init].
    unfold datelist_len in Hstop.
    destruct (finished_shape src b Hb s) as [_ Hlen]; [lia|done..|].
    split; [done|]. apply (inv_issued src b). by eapply reach_inv.
Qed.

Lemma X3_finishes_iff_witness :
  ((∃ s, replay healthy (sample_src 6) 3 5 init = Finished s) ↔
   ((Z.of_nat (length (datelist (sample_src 6))) - 1) mod 3 = 0 ∨
    (Z.of_nat (length (datelist (sample_src 6))) - 1) mod 3 = 3 - 1))
  ∧ (∀ s, replay healthy (sample_src 6) 3 5 init = Finished s →
      Z.of_nat (length (printed s))
        = ceil_div (Z.of_nat (length (datelist (sample_src 6))) - 1) 3 ∧
      issued s = printed s).
Proof.
  apply (X3_finishes_iff (sample_src 6) 3 5).
  - lia.
  - vm_compute. lia.
  - vm_compute. lia.
Defined.

(** X4: with the notebook's [daysAtOnce = 3] and a healthy engine, the cell
    stops with an index error exactly when the number [n] of distinct dates
    is at least [2] and leaves the remainder [2] when divided by [3]. *)
Theorem X4_default_step_index_error (src : list row) (fuel : nat) :
  (length (datelist src) - 1 ≤ fuel)%nat →
  (∃ s, replay healthy src daysAtOnce_default fuel init = Raised IndexError s) ↔
  (2 ≤ Z.of_nat (length (datelist src)) ∧ Z.of_nat (length (datelist src)) mod 3 = 2).
Proof.
  intros Hfuel. unfold daysAtOnce_default.
  assert (0 < 3) as Hb by lia. split.
  - intros [s Hrun]. apply healthy_Raised in Hrun as (_ & Hreach & Hlt & Hidx); [|done].
    destruct (raised_shape src 3 Hb s Hreach Hlt Hidx) as [Hmod _].
    pose proof (inv_cursor_nonneg _ _ Hb _ (reach_inv _ _ _ Hb _ Hreach)).
    split; [lia|]. revert Hmod. generalize (Z.of_nat (length (datelist src))).
    intros m Hmod. Z.div_mod_to_equations. lia.
  - intros [Hn Hmod].
    destruct (healthy_raises src 3 Hb fuel) as (s & Hrun & _);
      [lia| |unfold datelist_len; lia|eauto].
    revert Hmod. generalize (Z.of_nat (length (datelist src))).
    intros m Hmod. Z.div_mod_to_equations. lia.
Qed.

Lemma X4_default_step_index_error_witness :
  (∃ s, replay healthy (sample_src 5) daysAtOnce_default 4 init = Raised IndexError s) ↔
  (2 ≤ Z.of_nat (length (datelist (sample_src 5))) ∧
   Z.of_nat (length (datelist (sample_src 5))) mod 3 = 2).
Proof.
  apply (X4_default_step_index_error (sample_src 5) 4).
  vm_compute. lia.
Defined.

(** X5: the loop inserts nothing of its own. Whatever the step, the engine
    and the way the run ends, every row of the table is a row of the source
    that lies in the window of a batch for which a progress line was
    printed. *)
Theorem X5_only_source_rows (fault : list row → Z * Z → option string)
    (src : list row) (b : Z) (fuel : nat) :
  Forall (λ r, r ∈ src ∧
               covered (printed (outcome_state (replay fault src b fuel init))) r)
         (table (outcome_state (replay fault src b fuel init))).
Proof.
  destruct (outcome_reach fault src b fuel) as (s0 & Hreach & -> & -> & _).
  by apply (reach_rows_covered fault src b).
Qed.

Section Fuel.
Variable fault : engine.
Variable src : list row.
Variable b : Z.

(** A run of [k + fuel] iterations is a run of [k] iterations, continued for
    [fuel] more when it has not ended. *)
Lemma replay_add k fuel s :
  replay fault src b (k + fuel) s =
  match replay fault src b k s with
  | Running s' => replay fault src b fuel s'
  | o => o
  end.
Proof.
  revert s. induction k as [|k IH]; intros s.
  - simpl. case_bool_decide; [done|]. by apply replay_stop.
  - replace (S k + fuel)%nat with (S (k + fuel)) by lia. rewrite !replay_unfold.
    case_bool_decide; [|done].
    destruct (loop_body fault src b s) as [[e s1]|s1]; [done|]. apply IH.
Qed.
End Fuel.

(** X6: the loop only appends. From any state, the table and the progress
    lines at the start of a run are a prefix of those at its end, and a
    longer run has the table of a shorter one as a prefix. *)
Theorem X6_table_only_grows (fault : list row → Z * Z → option string)
    (src : list row) (b : Z) (fuel k : nat) (s : state) :
  table s `prefix_of` table (outcome_state (replay fault src b fuel s))
  ∧ printed s `prefix_of` printed (outcome_state (replay fault src b fuel s))
  ∧ table (outcome_state (replay fault src b fuel s))
      `prefix_of` table (outcome_state (replay fault src b (fuel + k) s)).
Proof.
  destruct (replay_table_prefix fault src b fuel s) as [Ht Hp].
  split; [done|]. split; [done|]. rewrite replay_add.
  destruct (replay fault src b fuel s) as [s1|e s1|s1]; try done. simpl.
  apply replay_table_prefix.
Qed.

Lemma filter_middle {A} (P : A → Prop) `{!∀ x, Decision (P x)} (l1 l2 l3 : list A) :
  (∀ x, x ∈ l1 → ¬ P x) → (∀ x, x ∈ l2 → P x) → (∀ x, x ∈ l3 → ¬ P x) →
  filter P (l1 ++ l2 ++ l3) = l2.
Proof.
  intros H1 H2 H3.
  by rewrite !filter_app, (filter_none P l1), (filter_all P l2), (filter_none P l3),
    app_nil_r.
Qed.

(** The dates between the dates at two indices of [datelist] are the dates
    at the indices between. *)
Lemma datelist_range (src : list row) (a c : nat) (lo hi : Z) :
  datelist src !! a = Some lo → datelist src !! c = Some hi → (a ≤ c)%nat →
  filter (λ d, lo ≤ d ∧ d ≤ hi) (datelist src)
  = take (c - a + 1) (drop a (datelist src)).
Proof.
  intros Ha Hc Hac.
  transitivity (filter (λ d, lo ≤ d ∧ d ≤ hi)
    (take a (datelist src) ++ take (c - a + 1) (drop a (datelist src))
       ++ drop (c - a + 1) (drop a (datelist src)))).
  { by rewrite !take_drop. }
  apply filter_middle.
  - intros x (i & Hi & Hlt)%elem_of_take.
    assert (x < lo); [|lia]. by eapply (datelist_lookup_lt src i a).
  - intros x (i & Hi & Hlt)%elem_of_take. rewrite lookup_drop in Hi. split.
    + eapply (datelist_lookup_le src a (a + i)); [lia|done..].
    + eapply (datelist_lookup_le src (a + i) c); [lia|done..].
  - intros x [i Hi]%list_elem_of_lookup_1. rewrite !lookup_drop in Hi.
    assert (hi < x); [|lia].
    eapply (datelist_lookup_lt src c (a + (c - a + 1 + i))); [lia|done..].
Qed.

(** X7: with a positive step, every batch spans exactly [daysAtOnce]
    consecutive distinct dates: the dates of [datelist] that lie in the
    window of batch [j] are the [b] dates from index [j * b] on. *)
Theorem X7_window_spans_step (fault : list row → Z * Z → option string)
    (src : list row) (b : Z) (s : state) (j : nat) (w : Z * Z) :
  0 < b → reach fault src b s → printed s !! j = Some w →
  filter (λ d, w.1 ≤ d ∧ d ≤ w.2) (datelist src)
    = take (Z.to_nat b) (drop (j * Z.to_nat b) (datelist src))
  ∧ length (filter (λ d, w.1 ≤ d ∧ d ≤ w.2) (datelist src)) = Z.to_nat b.
Proof.
  intros Hb Hreach Hj. pose proof (reach_inv _ _ _ Hb _ Hreach) as Hinv.
  destruct (inv_windows _ _ _ Hinv _ _ Hj) as [Hlo Hhi].
  assert (filter (λ d, w.1 ≤ d ∧ d ≤ w.2) (datelist src)
          = take (Z.to_nat b) (drop (j * Z.to_nat b) (datelist src))) as Heq.
  { rewrite (datelist_range src _ _ _ _ Hlo Hhi) by lia. f_equal; [lia|]. f_equal. lia. }
  split; [done|]. rewrite Heq, length_take, length_drop.
  apply lookup_lt_Some in Hhi. lia.
Qed.

Lemma X7_window_spans_step_witness :
  filter (λ d, (4, 6).1 ≤ d ∧ d ≤ (4, 6).2) (datelist (sample_src 7))
    = take (Z.to_nat 3) (drop (1 * Z.to_nat 3) (datelist (sample_src 7)))
  ∧ length (filter (λ d, (4, 6).1 ≤ d ∧ d ≤ (4, 6).2) (datelist (sample_src 7)))
    = Z.to_nat 3.
Proof.
  apply (X7_window_spans_step healthy (sample_src 7) 3
           (outcome_state (replay healthy (sample_src 7) 3 9 init)) 1 (4, 6)).
  - lia.
  - apply (replay_Finished healthy (sample_src 7) 3 9 init); [apply reach_init|].
    vm_compute. reflexivity.
  - vm_compute. reflexivity.
Defined.

(** X8: when the step divides [n - 1] and the loop has run to its end, what
    the table lacks of the source is exactly the rows of the last date: the
    source is, up to the order of rows, the table followed by those rows. *)
Theorem X8_last_date_left_out (src : list row) (b : Z) (fuel : nat) (s : state) :
  0 < b → (1 < length (datelist src))%nat →
  (Z.of_nat (length (datelist src)) - 1) mod b = 0 →
  replay healthy src b fuel init = Finished s →
  ∃ last_date,
    last (datelist src) = Some last_date ∧
    src ≡ₚ table s ++ filter (λ r, price_date r = last_date) src ∧
    filter (λ r, price_date r = last_date) src ≠ [].
Proof.
  intros Hb Hn Hmod Hrun.
  apply replay_Finished in Hrun as [Hreach Hstop]; [|apply reach_init].
  unfold datelist_len in Hstop.
  pose proof (reach_inv _ _ _ Hb _ Hreach) as Hinv.
  destruct (finished_shape src b Hb s) as [[[_ Hc]|(_ & ? & _)] _]; [lia|done..| |done].
  destruct (lookup_lt_is_Some_2 (datelist src) (length (datelist src) - 1))
    as [last_date Hlast]; [lia|].
  exists last_date. split; [|split].
  - rewrite last_lookup. by replace (pred (length (datelist src)))
      with (length (datelist src) - 1)%nat by lia.
  - rewrite (inv_table_covered src b Hb s Hinv).
    rewrite <- (filter_all (λ _, True) src) at 1 by done. symmetry.
    apply filter_disjoint_app.
    + intros r Hr. destruct (datelist_row_lookup _ _ Hr) as [m Hm].
      rewrite (inv_covered_index src b Hb s r m Hinv Hm).
      pose proof (lookup_lt_Some _ _ _ Hm).
      split; [intros _|done].
      destruct (decide (Z.of_nat m < cursor s)); [by left|right].
      assert (m = (length (datelist src) - 1)%nat) as -> by lia. congruence.
    + intros r Hr Hcov Hdate. destruct (datelist_row_lookup _ _ Hr) as [m Hm].
      apply (inv_covered_index src b Hb s r m Hinv Hm) in Hcov.
      rewrite Hdate in Hm.
      pose proof (NoDup_lookup _ _ _ _ (datelist_NoDup src) Hm Hlast). lia.
  - apply list_elem_of_lookup_2, datelist_elem_of in Hlast as (r & Hr & Hdate).
    intros Hnil. eapply (filter_nil_not_elem_of _ _ r); [exact Hnil| |done]. done.
Qed.

Lemma X8_last_date_left_out_witness :
  ∃ last_date,
    last (datelist (sample_src 4)) = Some last_date ∧
    sample_src 4 ≡ₚ table (outcome_state (replay healthy (sample_src 4) 3 5 init))
      ++ filter (λ r, price_date r = last_date) (sample_src 4) ∧
    filter (λ r, price_date r = last_date) (sample_src 4) ≠ [].
Proof.
  apply (X8_last_date_left_out (sample_src 4) 3 5).
  - lia.
  - vm_compute. lia.
  - vm_compute. reflexivity.
  - vm_compute. reflexivity.
Defined.

Lemma py_index_Some_bounds {A} (l : list A) (k : Z) (x : A) :
  py_index l k = Some x → - Z.of_nat (length l) ≤ k < Z.of_nat (length l).
Proof.
  unfold py_index. repeat case_bool_decide; [| |done];
    intros Hx%lookup_lt_Some; lia.
Qed.

Section NonPositive.
Variable src : list row.

(** Every row of the source is dated between the first and the last date. *)
Lemma select_all lo hi :
  datelist src !! 0%nat = Some lo → last (datelist src) = Some hi →
  select_window src (lo, hi) = src.
Proof.
  intros Hlo Hhi. rewrite last_lookup in Hhi. apply filter_all. intros r Hr.
  destruct (datelist_row_lookup _ _ Hr) as [m Hm].
  pose proof (lookup_lt_Some _ _ _ Hm). split; simpl.
  - eapply (datelist_lookup_le src 0 m); [lia|done..].
  - eapply (datelist_lookup_le src m); [|done..]. lia.
Qed.

Lemma zero_step_runs fuel s lo hi :
  (1 < length (datelist src))%nat →
  datelist src !! 0%nat = Some lo → last (datelist src) = Some hi →
  cursor s = 0 →
  replay healthy src 0 fuel s
  = Running (State 0 (table s ++ mjoin (replicate fuel src))
                     (issued s ++ replicate fuel (lo, hi))
                     (printed s ++ replicate fuel (lo, hi))).
Proof.
  intros Hn Hlo Hhi. revert s. induction fuel as [|fuel IH]; intros s Hc.
  - simpl. rewrite bool_decide_eq_true_2 by (unfold datelist_len; lia).
    destruct s; simpl in *. by rewrite !app_nil_r, Hc.
  - rewrite replay_unfold, bool_decide_eq_true_2 by (unfold datelist_len; lia).
    assert (loop_body healthy src 0 s
            = inr (State 0 (table s ++ src) (issued s ++ [(lo, hi)])
                         (printed s ++ [(lo, hi)]))) as ->.
    { assert (py_index (datelist src) 0 = Some lo) as Hmin
        by (by rewrite py_index_nonneg).
      unfold loop_body, spark_sql_insert, healthy. rewrite Hc, Hmin. simpl.
      change (0 + 0 - 1) with (-1). change (0 + 0) with 0.
      assert (py_index (datelist src) (-1) = Some hi) as ->.
      { unfold py_index. rewrite bool_decide_eq_false_2, bool_decide_eq_true_2 by lia.
        rewrite last_lookup in Hhi. rewrite <- Hhi. f_equal. lia. }
      by rewrite select_all. }
    rewrite IH by done. simpl. by rewrite <- !app_assoc.
Qed.

Lemma negative_step_raises b fuel s :
  b < 0 → (1 < length (datelist src))%nat → cursor s ≤ 0 → (1 ≤ fuel)%nat →
  (Z.to_nat (Z.of_nat (length (datelist src)) + cursor s + 1) ≤ fuel)%nat →
  ∃ s', replay healthy src b fuel s = Raised IndexError s'.
Proof.
  intros Hb Hn. revert s. induction fuel as [|fuel IH]; intros s Hc H1 Hfuel; [lia|].
  rewrite replay_unfold, bool_decide_eq_true_2 by (unfold datelist_len; lia).
  destruct (loop_body healthy src b s) as [[e s1]|s1] eqn:Hbody.
  - apply loop_body_failure in Hbody as [(-> & -> & _)|(w & msg & _ & _ & ? & _)];
      [eauto|done].
  - apply loop_body_success in Hbody as (w & _ & Hhi%py_index_Some_bounds & _ & ->).
    apply IH; simpl; lia.
Qed.
End NonPositive.

(** X9: with a step of zero and more than one distinct date the loop never
    ends on a healthy engine: the cursor stays at [0], and every iteration
    inserts the whole source once more, under the window from the first date
    to the last. *)
Theorem X9_zero_step_runs_forever (src : list row) (fuel : nat) :
  (1 < length (datelist src))%nat →
  ∃ lo hi,
    datelist src !! 0%nat = Some lo ∧ last (datelist src) = Some hi ∧
    replay healthy src 0 fuel init
    = Running (State 0 (mjoin (replicate fuel src))
                       (replicate fuel (lo, hi)) (replicate fuel (lo, hi))).
Proof.
  intros Hn.
  destruct (lookup_lt_is_Some_2 (datelist src) 0) as [lo Hlo]; [lia|].
  destruct (lookup_lt_is_Some_2 (datelist src) (pred (length (datelist src))))
    as [hi Hhi]; [lia|].
  rewrite <- last_lookup in Hhi. exists lo, hi. repeat split; try done.
  by rewrite (zero_step_runs src fuel init lo hi).
Qed.

Lemma X9_zero_step_runs_forever_witness :
  ∃ lo hi,
    datelist (sample_src 2) !! 0%nat = Some lo ∧
    last (datelist (sample_src 2)) = Some hi ∧
    replay healthy (sample_src 2) 0 3 init
    = Running (State 0 (mjoin (replicate 3 (sample_src 2)))
                       (replicate 3 (lo, hi)) (replicate 3 (lo, hi))).
Proof.
  apply (X9_zero_step_runs_forever (sample_src 2) 3).
  vm_compute. lia.
Defined.

(** X10: with a negative step and more than one distinct date the loop
    never runs to its end, whatever the engine: the cursor goes down from
    [0] and stays below [len(datelist) - 1]; on a healthy engine the cell
    stops with an index error within [len(datelist) + 1] iterations. *)
Theorem X10_negative_step_index_error (src : list row) (b : Z) (fuel : nat) :
  b < 0 → (1 < length (datelist src))%nat → (length (datelist src) + 1 ≤ fuel)%nat →
  (∃ s, replay healthy src b fuel init = Raised IndexError s)
  ∧ (∀ (fault : list row → Z * Z → option string) fuel' s,
       replay fault src b fuel' init ≠ Finished s).
Proof.
  intros Hb Hn Hfuel. split.
  - apply negative_step_raises; simpl; lia.
  - intros fault fuel' s Hrun.
    apply replay_Finished in Hrun as [Hreach Hstop]; [|apply reach_init].
    apply reach_cursor_multiple in Hreach. unfold datelist_len in Hstop. nia.
Qed.

Lemma X10_negative_step_index_error_witness :
  (∃ s, replay healthy (sample_src 3) (-1) 4 init = Raised IndexError s)
  ∧ (∀ (fault : list row → Z * Z → option string) fuel' s,
       replay fault (sample_src 3) (-1) fuel' init ≠ Finished s).
Proof.
  apply (X10_negative_step_index_error (sample_src 3) (-1) 4).
  - lia.
  - vm_compute. lia.
  - vm_compute. lia.
Defined.

(** * More about the store *)

Local Ltac not_under := by vm_compute; intros [?|?].

Lemma parquetFund_not_under_deltaFund : ¬ under deltaFundPath parquetFundPath.
Proof. not_under. Qed.
Lemma parquetFund_not_under_deltaPrice : ¬ under deltaPricePath parquetFundPath.
Proof. not_under. Qed.
Lemma parquetPrice_not_under_deltaFund : ¬ under deltaFundPath parquetPricePath.
Proof. not_under. Qed.
Lemma deltaFund_not_under_deltaPrice : ¬ under deltaPricePath deltaFundPath.
Proof. not_under. Qed.
Lemma deltaPrice_not_under_deltaFund : ¬ under deltaFundPath deltaPricePath.
Proof. not_under. Qed.
Lemma deltaPriceFund_not_under_deltaPrice : ¬ under deltaPricePath deltaPriceFundPath.
Proof. not_under. Qed.

Lemma bootstrap_price_table_eq (fs : gmap string dataset) :
  bootstrap_price_table fs
  = (λ df, save_overwrite deltaPricePath (limit 0 df) (fs_rm deltaPricePath fs))
      <$> fs !! parquetPricePath.
Proof.
  unfold bootstrap_price_table, read_parquet. simpl.
  rewrite fs_rm_lookup, decide_False by apply parquet_not_under_delta.
  by destruct (fs !! parquetPricePath).
Qed.

Lemma bootstrap_fund_table_eq (fs : gmap string dataset) :
  bootstrap_fund_table fs
  = (λ df, save_overwrite deltaFundPath df (fs_rm deltaFundPath fs))
      <$> fs !! parquetFundPath.
Proof.
  unfold bootstrap_fund_table, read_parquet. simpl.
  rewrite fs_rm_lookup, decide_False by apply parquetFund_not_under_deltaFund.
  by destruct (fs !! parquetFundPath).
Qed.

Lemma save_rm_lookup dir df (fs : gmap string dataset) p :
  save_overwrite dir df (fs_rm dir fs) !! p
  = if decide (p = dir) then Some df
    else if decide (under dir p) then None else fs !! p.
Proof.
  unfold save_overwrite. destruct (decide (p = dir)) as [->|Hne].
  - by rewrite lookup_insert_eq.
  - by rewrite lookup_insert_ne, fs_rm_lookup.
Qed.

(** X11: the bootstrap of the price table touches the delta location and
    what lies below it, and nothing else. Afterwards every other location
    below it holds nothing, and every location outside it holds what it
    held: the two downloads and the two other tables among them, also the
    table whose name only extends that of the price table. *)
Theorem X11_price_bootstrap_frame (fs fs' : gmap string dataset) (p : string) :
  bootstrap_price_table fs = Some fs' → p ≠ deltaPricePath →
  fs' !! p = (if decide (under deltaPricePath p) then None else fs !! p)
  ∧ fs' !! parquetPricePath = fs !! parquetPricePath
  ∧ fs' !! parquetFundPath = fs !! parquetFundPath
  ∧ fs' !! deltaFundPath = fs !! deltaFundPath
  ∧ fs' !! deltaPriceFundPath = fs !! deltaPriceFundPath.
Proof.
  rewrite bootstrap_price_table_eq.
  destruct (fs !! parquetPricePath) as [df|] eqn:Hdf; [|done].
  simpl. intros [= <-] Hp. rewrite !save_rm_lookup.
  rewrite (decide_False (P := p = deltaPricePath)) by done.
  by repeat split.
Qed.

Lemma X11_price_bootstrap_frame_witness :
  let fs' := default ∅ (bootstrap_price_table sample_lake) in
  let p := deltaPricePath +:+ "/_delta_log" in
  fs' !! p = (if decide (under deltaPricePath p) then None else sample_lake !! p)
  ∧ fs' !! parquetPricePath = sample_lake !! parquetPricePath
  ∧ fs' !! parquetFundPath = sample_lake !! parquetFundPath
  ∧ fs' !! deltaFundPath = sample_lake !! deltaFundPath
  ∧ fs' !! deltaPriceFundPath = sample_lake !! deltaPriceFundPath.
Proof.
  apply (X11_price_bootstrap_frame sample_lake).
  - vm_compute. reflexivity.
  - vm_compute. discriminate.
Defined.

(** X12: the cell of the price table raises exactly when the parquet
    location holds nothing, and it has by then removed the old price table:
    the store it leaves has nothing at the delta location. When it does not
    raise it leaves the store of [bootstrap_price_table]. *)
Theorem X12_price_cell_missing_download (fs : gmap string dataset) :
  price_table_cell fs
    = match bootstrap_price_table fs with
      | Some fs' => CellDone fs'
      | None => CellRaised (fs_rm deltaPricePath fs)
      end
  ∧ (bootstrap_price_table fs = None ↔ fs !! parquetPricePath = None)
  ∧ fs_rm deltaPricePath fs !! deltaPricePath = None.
Proof.
  split; [|split].
  - unfold price_table_cell, bootstrap_price_table. simpl.
    by destruct (read_parquet (fs_rm deltaPricePath fs) parquetPricePath).
  - rewrite bootstrap_price_table_eq. by destruct (fs !! parquetPricePath).
  - rewrite fs_rm_lookup, decide_True; [done|by left].
Qed.

(** X13: the bootstrap of the fundamentals table copies the parquet data
    as it is: loading the delta location afterwards gives the dataset that
    was read, the download is still there, and running the bootstrap again
    on its own result changes nothing. *)
Theorem X13_fund_bootstrap_copies (fs fs' : gmap string dataset) :
  bootstrap_fund_table fs = Some fs' →
  load_delta fs' deltaFundPath = read_parquet fs parquetFundPath
  ∧ is_Some (read_parquet fs parquetFundPath)
  ∧ fs' !! parquetFundPath = fs !! parquetFundPath
  ∧ bootstrap_fund_table fs' = Some fs'.
Proof.
  rewrite bootstrap_fund_table_eq. unfold load_delta, read_parquet.
  destruct (fs !! parquetFundPath) as [df|] eqn:Hdf; [|done].
  simpl. intros [= <-].
  assert (save_overwrite deltaFundPath df (fs_rm deltaFundPath fs) !! parquetFundPath
          = Some df) as Hkeep.
  { rewrite save_rm_lookup, decide_False, decide_False; [done| |done].
    apply parquetFund_not_under_deltaFund. }
  repeat split; try done.
  - by rewrite save_rm_lookup, decide_True.
  - rewrite bootstrap_fund_table_eq, Hkeep. simpl. by rewrite fs_rm_save.
Qed.

Lemma X13_fund_bootstrap_copies_witness :
  let fs' := default ∅ (bootstrap_fund_table sample_lake) in
  load_delta fs' deltaFundPath = read_parquet sample_lake parquetFundPath
  ∧ is_Some (read_parquet sample_lake parquetFundPath)
  ∧ fs' !! parquetFundPath = sample_lake !! parquetFundPath
  ∧ bootstrap_fund_table fs' = Some fs'.
Proof.
  apply (X13_fund_bootstrap_copies sample_lake).
  vm_compute. reflexivity.
Defined.

(** X14: the bootstraps of the price table and of the fundamentals table do
    not depend on each other: run in either order they give the same store,
    and raise on the same stores. *)
Theorem X14_bootstraps_commute (fs : gmap string dataset) :
  bootstrap_price_table fs ≫= bootstrap_fund_table
  = bootstrap_fund_table fs ≫= bootstrap_price_table.
Proof.
  rewrite (bootstrap_price_table_eq fs), (bootstrap_fund_table_eq fs).
  destruct (fs !! parquetPricePath) as [dp|] eqn:Hdp,
    (fs !! parquetFundPath) as [df|] eqn:Hdf; simpl;
    rewrite ?bootstrap_price_table_eq, ?bootstrap_fund_table_eq, ?save_rm_lookup;
    repeat (rewrite decide_False
      by (done || apply parquet_not_under_delta
          || apply parquetFund_not_under_deltaPrice
          || apply parquetPrice_not_under_deltaFund
          || apply parquetFund_not_under_deltaFund));
    rewrite ?Hdp, ?Hdf; simpl; try done.
  f_equal. apply map_eq. intros p. unfold save_overwrite.
  pose proof deltaFund_not_under_deltaPrice.
  pose proof deltaPrice_not_under_deltaFund.
  destruct (decide (p = deltaPricePath)) as [->|Hp];
    [|destruct (decide (p = deltaFundPath)) as [->|Hf]].
  - rewrite lookup_insert_ne by done.
    rewrite fs_rm_lookup, decide_False by done. by rewrite !lookup_insert_eq.
  - rewrite lookup_insert_eq, lookup_insert_ne by done.
    rewrite fs_rm_lookup, decide_False by done. by rewrite lookup_insert_eq.
  - rewrite !lookup_insert_ne, !fs_rm_lookup by done.
    rewrite !lookup_insert_ne, !fs_rm_lookup by done.
    by destruct (decide (under deltaFundPath p)), (decide (under deltaPricePath p)).
Qed.

(** * More about the catalog *)

(** What the cells that create the table leave: the tables of the database
    as they were, but for [stockDailyPrices_delta], which is at the delta
    location. *)
Lemma create_table_cells_result (fs : gmap string dataset) (se : session) :
  is_Some (fs !! deltaPricePath) →
  run_sql fs create_table_cells se
  = inr (Session
      (<["stockDeltaStreaming" :=
           <["stockDailyPrices_delta" := deltaPricePath]>
             (default ∅ (databases se !! "stockDeltaStreaming"))]> (databases se))
      "stockDeltaStreaming").
Proof.
  intros [df Hdf]. unfold create_table_cells. simpl.
  destruct (databases se !! "stockDeltaStreaming") as [tables|] eqn:Hdb; simpl.
  - repeat (progress (rewrite ?Hdb, ?lookup_insert_eq, ?lookup_delete_eq, ?Hdf; simpl)).
    by rewrite insert_insert_eq, insert_delete_eq.
  - repeat (progress (rewrite ?Hdb, ?lookup_insert_eq, ?lookup_delete_eq, ?Hdf; simpl)).
    by rewrite !insert_insert_eq, insert_delete_eq.
Qed.

(** X15: once the price table is bootstrapped, the cells that create
    [stockDailyPrices_delta] raise nothing, whatever the session held: the
    table is not there when it is created, and the location holds a table.
    They leave [stockDeltaStreaming] in use, with the table at the delta
    location; and run again on the session they leave, they leave it as it
    is. *)
Theorem X15_create_table_cells_succeed (fs fs' : gmap string dataset) (se : session) :
  bootstrap_price_table fs = Some fs' →
  ∃ se' tables,
    run_sql fs' create_table_cells se = inr se' ∧
    current_database se' = "stockDeltaStreaming" ∧
    databases se' !! "stockDeltaStreaming" = Some tables ∧
    tables !! "stockDailyPrices_delta" = Some deltaPricePath ∧
    run_sql fs' create_table_cells se' = inr se'.
Proof.
  rewrite bootstrap_price_table_eq.
  destruct (fs !! parquetPricePath) as [df|]; [|done].
  intros Heq. simpl in Heq. injection Heq as <-.
  assert (is_Some (save_overwrite deltaPricePath (limit 0 df) (fs_rm deltaPricePath fs)
                   !! deltaPricePath)) as Hloc.
  { rewrite save_rm_lookup, decide_True by done. eauto. }
  set (fs' := save_overwrite deltaPricePath (limit 0 df) (fs_rm deltaPricePath fs)) in *.
  set (tables := <["stockDailyPrices_delta" := deltaPricePath]>
                   (default ∅ (databases se !! "stockDeltaStreaming"))).
  exists (Session (<["stockDeltaStreaming" := tables]> (databases se))
                  "stockDeltaStreaming"), tables.
  rewrite !(create_table_cells_result fs') by done.
  split; [done|]. split; [done|]. simpl. rewrite lookup_insert_eq.
  split; [done|]. split; [apply lookup_insert_eq|].
  simpl. unfold tables. by rewrite !insert_insert_eq.
Qed.

Lemma X15_create_table_cells_succeed_witness :
  ∃ se' tables,
    run_sql (default ∅ (bootstrap_price_table sample_lake)) create_table_cells
      sample_session = inr se' ∧
    current_database se' = "stockDeltaStreaming" ∧
    databases se' !! "stockDeltaStreaming" = Some tables ∧
    tables !! "stockDailyPrices_delta" = Some deltaPricePath ∧
    run_sql (default ∅ (bootstrap_price_table sample_lake)) create_table_cells se'
      = inr se'.
Proof.
  apply (X15_create_table_cells_succeed sample_lake).
  vm_compute. reflexivity.
Defined.

(** X16: the statement that creates the table cannot be run twice in a row:
    on the session it leaves it raises, the table being there. After the
    drop it passes again, which is why the notebook drops the table
    first. *)
Theorem X16_create_twice_raises (fs : gmap string dataset) (se se' : session)
    (t location : string) :
  exec_sql fs (CreateTableUsingDeltaLocation t location) se = inr se' →
  exec_sql fs (CreateTableUsingDeltaLocation t location) se'
    = inl (TableAlreadyExists t)
  ∧ ∃ se1 se2,
      exec_sql fs (DropTableIfExists t) se' = inr se1 ∧
      exec_sql fs (CreateTableUsingDeltaLocation t location) se1 = inr se2 ∧
      se2 = se'.
Proof.
  simpl.
  destruct (databases se !! current_database se) as [tables|] eqn:Hdb; [|done].
  destruct (tables !! t) eqn:Ht; [done|].
  destruct (fs !! location) as [df|] eqn:Hloc; [|done].
  intros [= <-]. simpl. rewrite !lookup_insert_eq. split; [done|].
  eexists _, _. split; [done|]. simpl.
  rewrite lookup_insert_eq, lookup_delete_eq. split; [done|].
  by rewrite insert_delete_eq, !insert_insert_eq.
Qed.

Lemma X16_create_twice_raises_witness :
  let fs := default ∅ (bootstrap_price_table sample_lake) in
  let se := Session {[ "default" := ∅ ]} "default" in
  let se' := Session {[ "default" := {[ "stockDailyPrices_delta" := deltaPricePath ]} ]}
                     "default" in
  exec_sql fs (CreateTableUsingDeltaLocation "stockDailyPrices_delta" deltaPricePath) se'
    = inl (TableAlreadyExists "stockDailyPrices_delta")
  ∧ ∃ se1 se2,
      exec_sql fs (DropTableIfExists "stockDailyPrices_delta") se' = inr se1 ∧
      exec_sql fs (CreateTableUsingDeltaLocation "stockDailyPrices_delta" deltaPricePath)
        se1 = inr se2 ∧
      se2 = se'.
Proof.
  apply (X16_create_twice_raises
           (default ∅ (bootstrap_price_table sample_lake))
           (Session {[ "default" := ∅ ]} "default")).
  vm_compute. reflexivity.
Defined.

(** X17: the cells that create the table leave every other database as it
    was and, in [stockDeltaStreaming], every other table where it was. *)
Theorem X17_create_table_cells_frame (fs : gmap string dataset) (se se' : session)
    (db t : string) :
  run_sql fs create_table_cells se = inr se' →
  (db ≠ "stockDeltaStreaming" → databases se' !! db = databases se !! db)
  ∧ (t ≠ "stockDailyPrices_delta" →
     (databases se' !! "stockDeltaStreaming") ≫= (.!! t)
     = (databases se !! "stockDeltaStreaming") ≫= (.!! t)).
Proof.
  intros Hrun.
  assert (is_Some (fs !! deltaPricePath)) as Hloc.
  { revert Hrun. unfold create_table_cells. simpl.
    destruct (databases se !! "stockDeltaStreaming") as [tables|] eqn:Hdb; simpl.
    - repeat (progress (rewrite ?Hdb, ?lookup_insert_eq, ?lookup_delete_eq; simpl)).
      destruct (fs !! deltaPricePath); [eauto|done].
    - repeat (progress (rewrite ?Hdb, ?lookup_insert_eq, ?lookup_delete_eq; simpl)).
      destruct (fs !! deltaPricePath); [eauto|done]. }
  rewrite create_table_cells_result in Hrun by done. injection Hrun as <-. simpl.
  split.
  - intros Hdb. by rewrite lookup_insert_ne.
  - intros Ht. rewrite lookup_insert_eq. simpl. rewrite lookup_insert_ne by done.
    by destruct (databases se !! "stockDeltaStreaming"); simpl; rewrite ?lookup_empty.
Qed.

Lemma X17_create_table_cells_frame_witness :
  let fs := default ∅ (bootstrap_price_table sample_lake) in
  let se' := match run_sql fs create_table_cells sample_session with
             | inr se' => se' | inl _ => sample_session end in
  ("default" ≠ "stockDeltaStreaming" →
     databases se' !! "default" = databases sample_session !! "default")
  ∧ ("other_table" ≠ "stockDailyPrices_delta" →
     (databases se' !! "stockDeltaStreaming") ≫= (.!! "other_table")
     = (databases sample_session !! "stockDeltaStreaming") ≫= (.!! "other_table")).
Proof.
  apply (X17_create_table_cells_frame (default ∅ (bootstrap_price_table sample_lake))
           sample_session).
  vm_compute. reflexivity.
Defined.
